(** * azcopy on FreeBSD: file information, sized file creation, credential cache

    A shallow embedding of [common/writeThoughFile_freebsd.go] and of the
    credential cache of package [common], with the properties of their
    specification stated and proved over it. *)

From Stdlib Require Import ZArith Lia List.
From stdpp Require Import base list strings.

Local Open Scope Z_scope.

(** ** Go's fixed-width integers

    Values are mathematical integers; each operation writes out the
    wrap-around of the Go type it is performed at. *)

Definition int64_range (z : Z) : Prop := - 2 ^ 63 <= z < 2 ^ 63.
Definition uint32_range (z : Z) : Prop := 0 <= z < 2 ^ 32.

(** The value of an integer once stored in an [int64]. *)
Definition wrap_int64 (z : Z) : Z := (z + 2 ^ 63) mod 2 ^ 64 - 2 ^ 63.

(** Conversions [uint32(x)], [uint64(x)] and [int64(x)]. *)
Definition to_uint32 (z : Z) : Z := z mod 2 ^ 32.
Definition to_uint64 (z : Z) : Z := z mod 2 ^ 64.
Definition to_int64 (z : Z) : Z := wrap_int64 z.

(** [int64] arithmetic: [+], [-], [*] wrap, [/] truncates toward zero,
    [<<] wraps, [>>] is the arithmetic shift, [&] is bitwise. *)
Definition add64 (a b : Z) : Z := wrap_int64 (a + b).
Definition sub64 (a b : Z) : Z := wrap_int64 (a - b).
Definition mul64 (a b : Z) : Z := wrap_int64 (a * b).
Definition quot64 (a b : Z) : Z := wrap_int64 (a ÷ b).
Definition shl64 (a k : Z) : Z := wrap_int64 (Z.shiftl a k).
Definition shr64 (a k : Z) : Z := Z.shiftr a k.
Definition and64 (a b : Z) : Z := Z.land a b.

(** [uint64] shift and mask. *)
Definition shru64 (a k : Z) : Z := Z.shiftr a k.
Definition andu64 (a b : Z) : Z := Z.land a b.

(** ** Time conversion *)

(** 100-nanosecond intervals from Windows Epoch (January 1, 1601) to Unix
    Epoch (January 1, 1970). *)
Definition TICKS_FROM_WINDOWS_EPOCH_TO_UNIX_EPOCH : Z := 116444736000000000.

Record Filetime : Type := mkFiletime {
  LowDateTime : Z;   (* uint32 *)
  HighDateTime : Z   (* uint32 *)
}.

Definition Filetime_wf (ft : Filetime) : Prop :=
  uint32_range (LowDateTime ft) /\ uint32_range (HighDateTime ft).

(** The 64-bit tick value a [Filetime] stands for, [(high<<32)|low]. *)
Definition Filetime_ticks (ft : Filetime) : Z :=
  Z.lor (Z.shiftl (HighDateTime ft) 32) (LowDateTime ft).

(** [func (ft *Filetime) Nanoseconds() int64] *)
Definition Nanoseconds (ft : Filetime) : Z :=
  let nsec := add64 (shl64 (to_int64 (HighDateTime ft)) 32)
                    (to_int64 (LowDateTime ft)) in
  let nsec := sub64 nsec TICKS_FROM_WINDOWS_EPOCH_TO_UNIX_EPOCH in
  mul64 nsec 100.

(** [func NsecToFiletime(nsec int64) Filetime] *)
Definition NsecToFiletime (nsec : Z) : Filetime :=
  let nsec := quot64 nsec 100 in
  let nsec := add64 nsec TICKS_FROM_WINDOWS_EPOCH_TO_UNIX_EPOCH in
  {| LowDateTime := to_uint32 (and64 nsec 0xFFFFFFFF);
     HighDateTime := to_uint32 (shr64 nsec 32) |}.

(** [func WindowsTicksToUnixNano(ticks int64) int64] *)
Definition WindowsTicksToUnixNano (ticks : Z) : Z :=
  let ticks := sub64 ticks TICKS_FROM_WINDOWS_EPOCH_TO_UNIX_EPOCH in
  mul64 ticks 100.

(** [func UnixNanoToWindowsTicks(nsec int64) int64] *)
Definition UnixNanoToWindowsTicks (nsec : Z) : Z :=
  let nsec := quot64 nsec 100 in
  add64 nsec TICKS_FROM_WINDOWS_EPOCH_TO_UNIX_EPOCH.

(** [unix.Timespec] on FreeBSD/amd64: two [int64] fields. *)
Record Timespec : Type := mkTimespec {
  Sec : Z;
  Nsec : Z
}.

(** [func TimespecToFiletime(ts unix.Timespec) Filetime] *)
Definition TimespecToFiletime (ts : Timespec) : Filetime :=
  NsecToFiletime (add64 (mul64 (to_int64 (Sec ts)) 1000000000)
                        (to_int64 (Nsec ts))).

(** ** File information *)

(** A Go [error] is observed through its message; [nil] is [None]. *)
Definition error : Type := string.

(** [syscall.S_IFMT] and [syscall.S_IFDIR] of Go's FreeBSD port. *)
Definition S_IFMT : Z := 0xf000.
Definition S_IFDIR : Z := 0x4000.

(** The fields of [unix.Stat_t] that [GetFileInformation] reads. *)
Record Stat_t : Type := mkStat {
  Ino : Z;          (* uint64 *)
  Nlink : Z;        (* uint64 *)
  Mode : Z;         (* uint16 *)
  Atim : Timespec;
  Mtim : Timespec;
  Size : Z          (* int64 *)
}.

(** windows.ByHandleFileInformation *)
Record ByHandleFileInformation : Type := mkInfo {
  FileAttributes : Z;
  CreationTime : Filetime;
  LastAccessTime : Filetime;
  LastWriteTime : Filetime;
  VolumeSerialNumber : Z;
  FileSizeHigh : Z;
  FileSizeLow : Z;
  NumberOfLinks : Z;
  FileIndexHigh : Z;
  FileIndexLow : Z
}.

(** Go's zero values. *)
Definition Filetime_zero : Filetime :=
  {| LowDateTime := 0; HighDateTime := 0 |}.

Definition ByHandleFileInformation_zero : ByHandleFileInformation :=
  {| FileAttributes := 0;
     CreationTime := Filetime_zero;
     LastAccessTime := Filetime_zero;
     LastWriteTime := Filetime_zero;
     VolumeSerialNumber := 0;
     FileSizeHigh := 0;
     FileSizeLow := 0;
     NumberOfLinks := 0;
     FileIndexHigh := 0;
     FileIndexLow := 0 |}.

(** What [unix.Stat(path, &st)] answers: an error, or the filled record. *)
Inductive StatOutcome : Type :=
| StatFails (err : error)
| StatOk (st : Stat_t).

(** [fmt.Errorf("stat(%s) failed: %v", path, err)] *)
Definition Errorf_stat (path : string) (err : error) : error :=
  ("stat(" ++ path ++ ") failed: " ++ err)%string.

(** [func GetFileInformation(path string, isNFSCopy bool)
    (ByHandleFileInformation, error)], over the answer of the OS. *)
Definition GetFileInformation (unix_Stat : string -> StatOutcome)
    (path : string) (isNFSCopy : bool)
    : ByHandleFileInformation * option error :=
  match unix_Stat path with
  | StatFails err => (ByHandleFileInformation_zero, Some (Errorf_stat path err))
  | StatOk st =>
      let info := ByHandleFileInformation_zero in
      let attrs :=
        if Z.land (Mode st) S_IFMT =? S_IFDIR
        then to_uint32 (Z.lor (FileAttributes info) 0x10)
        else 0x80 in
      let mtim := {| Sec := Sec (Mtim st); Nsec := Nsec (Mtim st) |} in
      let atim := {| Sec := Sec (Atim st); Nsec := Nsec (Atim st) |} in
      let size := to_uint64 (Size st) in
      let ino := to_uint64 (Ino st) in
      ({| FileAttributes := attrs;
          CreationTime := TimespecToFiletime mtim;
          LastAccessTime := TimespecToFiletime atim;
          LastWriteTime := TimespecToFiletime mtim;
          VolumeSerialNumber := 0;
          FileSizeHigh := to_uint32 (shru64 size 32);
          FileSizeLow := to_uint32 (andu64 size 0xFFFFFFFF);
          NumberOfLinks := to_uint32 (Nlink st);
          FileIndexHigh := to_uint32 (shru64 ino 32);
          FileIndexLow := to_uint32 (andu64 ino 0xFFFFFFFF) |}, None)
  end.

(** ** Creating a file of a given size *)

(** [os.O_RDWR], [os.O_CREATE], [os.O_TRUNC] and [os.O_SYNC] on FreeBSD. *)
Definition O_RDWR : Z := 0x2.
Definition O_CREATE : Z := 0x200.
Definition O_TRUNC : Z := 0x400.
Definition O_SYNC : Z := 0x80.

(** The collaborators of [CreateFileOfSizeWithWriteThroughOption]: the
    package's directory creation and file permission, and the calls of
    package [os], each a transition of the world outside. [File] are the
    values of [*os.File], [nil_File] the nil pointer. *)
Class FileSystem (World File Tracker : Type) : Type := {
  nil_File : File;
  DEFAULT_FILE_PERM : Z;
  CreateParentDirectoryIfNotExist :
    string -> Tracker -> World -> option error * World;
  os_OpenFile : string -> Z -> Z -> World -> (File * option error) * World;
  File_Truncate : File -> Z -> World -> option error * World;
  File_Close : File -> World -> option error * World
}.

(** The calls made to the outside, in order. *)
Inductive Call (File Tracker : Type) : Type :=
| CallCreateParentDirectory (path : string) (t : Tracker)
| CallOpenFile (path : string) (flags perm : Z)
| CallTruncate (f : File) (size : Z)
| CallClose (f : File).

Arguments CallCreateParentDirectory {File Tracker} path t.
Arguments CallOpenFile {File Tracker} path flags perm.
Arguments CallTruncate {File Tracker} f size.
Arguments CallClose {File Tracker} f.

Section SizedFile.
Context {World File Tracker : Type} `{FS : FileSystem World File Tracker}.

(** A computation threads the world and logs the calls it makes. *)
Definition IO (A : Type) : Type :=
  World * list (Call File Tracker) -> A * (World * list (Call File Tracker)).

Definition ret {A} (a : A) : IO A := fun s => (a, s).

Definition bind {A B} (m : IO A) (k : A -> IO B) : IO B :=
  fun s => let (a, s') := m s in k a s'.

Definition call {A} (c : Call File Tracker) (op : World -> A * World) : IO A :=
  fun s => let (a, w') := op (fst s) in (a, (w', snd s ++ [c])).

Definition createParentDirectoryIfNotExist (path : string) (t : Tracker)
    : IO (option error) :=
  call (CallCreateParentDirectory path t)
       (CreateParentDirectoryIfNotExist path t).

Definition openFile (path : string) (flags perm : Z)
    : IO (File * option error) :=
  call (CallOpenFile path flags perm) (os_OpenFile path flags perm).

Definition truncate (f : File) (size : Z) : IO (option error) :=
  call (CallTruncate f size) (File_Truncate f size).

Definition close (f : File) : IO (option error) :=
  call (CallClose f) (File_Close f).

(** [func CreateFileOfSizeWithWriteThroughOption(destinationPath string,
    fileSize int64, writeThrough bool, t FolderCreationTracker,
    forceIfReadOnly bool)], returning a [*os.File] and an [error] *)
Definition CreateFileOfSizeWithWriteThroughOption (destinationPath : string)
    (fileSize : Z) (writeThrough : bool) (t : Tracker)
    (forceIfReadOnly : bool) : IO (File * option error) :=
  bind (createParentDirectoryIfNotExist destinationPath t) (fun err =>
  match err with
  | Some e => ret (nil_File, Some e)
  | None =>
      let flags := Z.lor (Z.lor O_RDWR O_CREATE) O_TRUNC in
      let flags := if writeThrough then Z.lor flags O_SYNC else flags in
      bind (openFile destinationPath flags DEFAULT_FILE_PERM) (fun '(f, err) =>
      match err with
      | Some e => ret (nil_File, Some e)
      | None =>
          if fileSize =? 0 then ret (f, err)
          else
            bind (truncate f fileSize) (fun err =>
            match err with
            | Some e => bind (close f) (fun _ => ret (nil_File, Some e))
            | None => ret (f, None)
            end)
      end)
  end).

(** Running from a world with an empty log. *)
Definition run_IO {A} (m : IO A) (w : World)
    : A * (World * list (Call File Tracker)) := m (w, []).
End SizedFile.

(** ** The credential cache *)

(** The option of [CredCacheOptions] that [NewCredCache] reads. *)
Record CredCacheOptions : Type := mkOptions {
  KeyName : string
}.

(** [sync.Mutex]: [true] when locked; the zero value is unlocked. *)
Definition Mutex : Type := bool.

Record CredCache : Type := mkCredCache {
  keyName : string;
  lock : Mutex;
  isPermSet : bool
}.

Definition set_lock (m : Mutex) (c : CredCache) : CredCache :=
  {| keyName := keyName c; lock := m; isPermSet := isPermSet c |}.

(** [func NewCredCache(options CredCacheOptions) *CredCache] *)
Definition NewCredCache (options : CredCacheOptions) : CredCache :=
  {| keyName := KeyName options; lock := false; isPermSet := false |}.

(** The body of a method of [*CredCache]: what it does with the mutex and
    the backend, in order, and what it returns. [Internal body k] runs the
    internal method [body] on the receiver and goes on with its result. *)
Inductive prog (R : Type) : Type :=
| Return (r : R)
| Lock (k : prog R)
| Unlock (k : prog R)
| Internal {A : Type} (body : CredCache -> A) (k : A -> prog R).

Arguments Return {R} r.
Arguments Lock {R} k.
Arguments Unlock {R} k.
Arguments Internal {R A} body k.

Section CredCacheMethods.
Context {OAuthTokenInfo : Type}.

(** The stub backend. *)
Definition hasCachedTokenInternal (c : CredCache) : bool * option error :=
  (false, None).

Definition removeCachedTokenInternal (c : CredCache) : option error := None.

Definition saveTokenInternal (token : OAuthTokenInfo) (c : CredCache)
    : option error := None.

Definition loadTokenInternal (c : CredCache)
    : option OAuthTokenInfo * option error := (None, None).

(** [func (c *CredCache) HasCachedToken() (bool, error)] *)
Definition HasCachedToken : prog (bool * option error) :=
  Lock (
  Internal hasCachedTokenInternal (fun '(has, err) =>
  Unlock (
  Return (has, err)))).

(** [func (c *CredCache) RemoveCachedToken() error] *)
Definition RemoveCachedToken : prog (option error) :=
  Lock (
  Internal removeCachedTokenInternal (fun err =>
  Unlock (
  Return err))).

(** [func (c *CredCache) SaveToken(token OAuthTokenInfo) error] *)
Definition SaveToken (token : OAuthTokenInfo) : prog (option error) :=
  Lock (
  Internal (saveTokenInternal token) (fun err =>
  Unlock (
  Return err))).

(** [func (c *CredCache) LoadToken()], returning a [*OAuthTokenInfo]
    ([nil] is [None]) and an [error] *)
Definition LoadToken : prog (option OAuthTokenInfo * option error) :=
  Lock (
  Internal loadTokenInternal (fun '(token, err) =>
  Unlock (
  Return (token, err)))).
End CredCacheMethods.

(** *** One caller at a time *)

(** How a call ends when no other goroutine touches the cache: it returns,
    or waits forever for a mutex nobody will unlock, or dies unlocking a
    mutex that is not locked. *)
Inductive outcome (R : Type) : Type :=
| Returns (r : R) (c : CredCache)
| Blocks
| FatalUnlock.

Arguments Returns {R} r c.
Arguments Blocks {R}.
Arguments FatalUnlock {R}.

Fixpoint run {R : Type} (p : prog R) (c : CredCache) : outcome R :=
  match p with
  | Return r => Returns r c
  | Lock k => if lock c then Blocks else run k (set_lock true c)
  | Unlock k => if lock c then run k (set_lock false c) else FatalUnlock
  | Internal body k => run (k (body c)) c
  end.

Definition outcome_bind {A B : Type} (o : outcome A)
    (k : A -> CredCache -> outcome B) : outcome B :=
  match o with
  | Returns a c => k a c
  | Blocks => Blocks
  | FatalUnlock => FatalUnlock
  end.

(** A call of one of the four public methods, and what it returned. *)
Inductive request (OAuthTokenInfo : Type) : Type :=
| ReqHasCachedToken
| ReqRemoveCachedToken
| ReqSaveToken (token : OAuthTokenInfo)
| ReqLoadToken.

Arguments ReqHasCachedToken {OAuthTokenInfo}.
Arguments ReqRemoveCachedToken {OAuthTokenInfo}.
Arguments ReqSaveToken {OAuthTokenInfo} token.
Arguments ReqLoadToken {OAuthTokenInfo}.

Inductive reply (OAuthTokenInfo : Type) : Type :=
| RepHasCachedToken (has : bool) (err : option error)
| RepRemoveCachedToken (err : option error)
| RepSaveToken (err : option error)
| RepLoadToken (token : option OAuthTokenInfo) (err : option error).

Arguments RepHasCachedToken {OAuthTokenInfo} has err.
Arguments RepRemoveCachedToken {OAuthTokenInfo} err.
Arguments RepSaveToken {OAuthTokenInfo} err.
Arguments RepLoadToken {OAuthTokenInfo} token err.

Definition perform {T : Type} (r : request T) (c : CredCache)
    : outcome (reply T) :=
  match r with
  | ReqHasCachedToken =>
      outcome_bind (run HasCachedToken c)
        (fun '(has, err) c' => Returns (RepHasCachedToken has err) c')
  | ReqRemoveCachedToken =>
      outcome_bind (run RemoveCachedToken c)
        (fun err c' => Returns (RepRemoveCachedToken err) c')
  | ReqSaveToken token =>
      outcome_bind (run (SaveToken token) c)
        (fun err c' => Returns (RepSaveToken err) c')
  | ReqLoadToken =>
      outcome_bind (run LoadToken c)
        (fun '(token, err) c' => Returns (RepLoadToken token err) c')
  end.

Fixpoint perform_all {T : Type} (rs : list (request T)) (c : CredCache)
    : outcome (list (reply T)) :=
  match rs with
  | [] => Returns [] c
  | r :: rs' =>
      outcome_bind (perform r c) (fun a c' =>
      outcome_bind (perform_all rs' c') (fun l c'' => Returns (a :: l) c''))
  end.

(** What the stub backend makes every call return. *)
Definition stub_reply {T : Type} (r : request T) : reply T :=
  match r with
  | ReqHasCachedToken => RepHasCachedToken false None
  | ReqRemoveCachedToken => RepRemoveCachedToken None
  | ReqSaveToken _ => RepSaveToken None
  | ReqLoadToken => RepLoadToken None None
  end.

(** *** Goroutines sharing one cache *)

(** A goroutine inside a call on the cache: what is left of the method it
    runs, or unwound by a panic. No method defers anything, so a panic
    leaves the method without running any of what is left. *)
Inductive goroutine : Type :=
| Running {R : Type} (p : prog R)
| Panicked.

(** Whether the internal method a goroutine is in returns or panics. *)
Inductive fate : Type := Normal | Panics.

Inductive event : Type :=
| Acquired
| BackendReturned
| BackendPanicked
| Released.

(** One step of a goroutine on the cache; [None] when it cannot move:
    it has returned, it waits in [Lock] for a locked mutex, or it has
    panicked. *)
Definition goroutine_step (f : fate) (c : CredCache) (g : goroutine)
    : option (event * CredCache * goroutine) :=
  match g with
  | Panicked => None
  | Running p =>
      match p with
      | Return _ => None
      | Lock k =>
          if lock c then None
          else Some (Acquired, set_lock true c, Running k)
      | Internal body k =>
          match f with
          | Normal => Some (BackendReturned, c, Running (k (body c)))
          | Panics => Some (BackendPanicked, c, Panicked)
          end
      | Unlock k =>
          if lock c then Some (Released, set_lock false c, Running k)
          else None
      end
  end.

Record system : Type := mkSystem {
  cache : CredCache;
  goroutines : list goroutine
}.

(** The scheduler picks goroutine [i]; a goroutine that cannot move stays
    where it is. *)
Definition system_step (i : nat) (f : fate) (s : system)
    : option (nat * event) * system :=
  match goroutines s !! i with
  | None => (None, s)
  | Some g =>
      match goroutine_step f (cache s) g with
      | None => (None, s)
      | Some (e, c', g') =>
          (Some (i, e),
           {| cache := c'; goroutines := <[i := g']> (goroutines s) |})
      end
  end.

Definition option_cons {A : Type} (o : option A) (l : list A) : list A :=
  match o with
  | Some a => a :: l
  | None => l
  end.

(** A schedule, run from [s]: the events in order, and the last state. *)
Fixpoint exec (sched : list (nat * fate)) (s : system)
    : list (nat * event) * system :=
  match sched with
  | [] => ([], s)
  | (i, f) :: sched' =>
      let (o, s') := system_step i f s in
      let (evs, s'') := exec sched' s' in
      (option_cons o evs, s'')
  end.

(** A goroutine that enters one of the four public methods. *)
Inductive public_call : goroutine -> Prop :=
| call_HasCachedToken :
    public_call (Running HasCachedToken)
| call_RemoveCachedToken :
    public_call (Running RemoveCachedToken)
| call_SaveToken (T : Type) (token : T) :
    public_call (Running (SaveToken token))
| call_LoadToken (T : Type) :
    public_call (Running (@LoadToken T)).

(** Callers arrive at a cache nobody holds. *)
Definition initial (s : system) : Prop :=
  lock (cache s) = false /\ Forall public_call (goroutines s).

(** The goroutine executes the body of an internal method. *)
Definition in_backend (g : goroutine) : bool :=
  match g with
  | Running (Internal _ _) => true
  | _ => false
  end.

(** The goroutine waits in [Lock]. *)
Definition at_lock (g : goroutine) : bool :=
  match g with
  | Running (Lock _) => true
  | _ => false
  end.

(** ** What the specification says, where the code differs *)

(** The round trip as the specification words it: exact on multiples of
    100, otherwise the nearest lower multiple of 100. *)
Definition spec_roundtrip_lower (n : Z) : Prop :=
  int64_range n ->
  (n mod 100 = 0 -> Nanoseconds (NsecToFiletime n) = n) /\
  (n mod 100 <> 0 -> Nanoseconds (NsecToFiletime n) = 100 * (n / 100)).

(** Times before 1970 as the specification words them: the exact negative
    count of nanoseconds. *)
Definition spec_exact_before_1970 (ft : Filetime) : Prop :=
  Filetime_wf ft ->
  Filetime_ticks ft < TICKS_FROM_WINDOWS_EPOCH_TO_UNIX_EPOCH ->
  Nanoseconds ft
    = (Filetime_ticks ft - TICKS_FROM_WINDOWS_EPOCH_TO_UNIX_EPOCH) * 100 /\
  Nanoseconds ft < 0.

(** The first tick whose distance to 1970 in nanoseconds an [int64] holds
    (1677-09-21T00:12:43.1452242Z). *)
Definition FIRST_EXACT_TICK : Z := 24211015631452242.

(** *** The shape of a public method *)

(** What is left of a public method at each of its stages: it returns; it
    unlocks and returns; it is in the internal method and, whatever that
    gives, unlocks and returns; it locks first. *)
Definition returns {R : Type} (p : prog R) : Prop :=
  match p with
  | Return _ => True
  | _ => False
  end.

Definition unlocks_then_returns {R : Type} (p : prog R) : Prop :=
  match p with
  | Unlock k => returns k
  | _ => False
  end.

Definition backend_then_unlocks {R : Type} (p : prog R) : Prop :=
  match p with
  | Internal _ k => forall a, unlocks_then_returns (k a)
  | _ => False
  end.

Definition locks_first {R : Type} (p : prog R) : Prop :=
  match p with
  | Lock k => backend_then_unlocks k
  | _ => False
  end.

Definition on_protocol (g : goroutine) : Prop :=
  match g with
  | Panicked => True
  | Running p =>
      locks_first p \/ backend_then_unlocks p \/
      unlocks_then_returns p \/ returns p
  end.

(** The goroutine is between its [Lock] and its [Unlock]. *)
Definition holds_mutex (g : goroutine) : bool :=
  match g with
  | Running (Internal _ _) => true
  | Running (Unlock _) => true
  | _ => false
  end.

(** What holds of every state callers can bring the cache to. *)
Definition exclusive (s : system) : Prop :=
  Forall on_protocol (goroutines s) /\
  (lock (cache s) = false ->
   forall i g, goroutines s !! i = Some g -> holds_mutex g = false) /\
  (forall i j gi gj,
     goroutines s !! i = Some gi -> goroutines s !! j = Some gj ->
     holds_mutex gi = true -> holds_mutex gj = true -> i = j).

(** The mutex is locked and nobody is there to unlock it. *)
Definition abandoned (s : system) : Prop :=
  Forall on_protocol (goroutines s) /\
  lock (cache s) = true /\
  (forall i g, goroutines s !! i = Some g -> holds_mutex g = false).

(** The last tick whose distance to 1970 in nanoseconds an [int64] holds
    (2262-04-11T23:47:16.8547758Z). *)
Definition LAST_EXACT_TICK : Z := 208678456368547758.

(** [func SetBackupMode(enable bool, fromTo FromTo) error] *)
Definition SetBackupMode {FromTo : Type} (enable : bool) (fromTo : FromTo)
    : option error := None.

(** ** Sample inputs *)

(** A regular file of [2^32 + 5] bytes and a directory, as [stat] reports
    them, and an OS that knows these two paths. *)
Definition sample_file : Stat_t :=
  {| Ino := 2 ^ 33 + 7; Nlink := 1; Mode := 0x81a4;
     Atim := {| Sec := 1700000000; Nsec := 123456789 |};
     Mtim := {| Sec := 1600000000; Nsec := 987654321 |};
     Size := 2 ^ 32 + 5 |}.

Definition sample_dir : Stat_t :=
  {| Ino := 42; Nlink := 3; Mode := 0x41ed;
     Atim := {| Sec := 1700000000; Nsec := 0 |};
     Mtim := {| Sec := 1600000000; Nsec := 0 |};
     Size := 512 |}.

Definition sample_Stat (path : string) : StatOutcome :=
  if String.eqb path "/data/big.bin" then StatOk sample_file
  else if String.eqb path "/data" then StatOk sample_dir
  else StatFails "no such file or directory".

(** A small outside world: a disk with [w] free bytes, where nothing can
    be created under [/ro], every open gives descriptor 3, and a file
    grows only while space is left. *)
Definition sample_mkdir (path : string) (t : unit) (w : Z)
    : option error * Z :=
  if String.prefix "/ro/" path then (Some "read-only file system"%string, w)
  else (None, w).

Definition sample_open (path : string) (flags perm : Z) (w : Z)
    : (nat * option error) * Z := ((3%nat, None), w).

Definition sample_truncate (f : nat) (size : Z) (w : Z) : option error * Z :=
  if size <=? w then (None, w - size)
  else (Some "no space left on device"%string, w).

Definition sample_close (f : nat) (w : Z) : option error * Z :=
  (Some "bad file descriptor"%string, w).

Definition sample_FS : FileSystem Z nat unit :=
  {| nil_File := 0%nat;
     DEFAULT_FILE_PERM := 420;
     CreateParentDirectoryIfNotExist := sample_mkdir;
     os_OpenFile := sample_open;
     File_Truncate := sample_truncate;
     File_Close := sample_close |}.

(** The flags [CreateFileOfSizeWithWriteThroughOption] opens with. *)
Definition open_flags (writeThrough : bool) : Z :=
  if writeThrough
  then Z.lor (Z.lor (Z.lor O_RDWR O_CREATE) O_TRUNC) O_SYNC
  else Z.lor (Z.lor O_RDWR O_CREATE) O_TRUNC.

(** Two callers of the cache of "user1", and a schedule on which the
    first panics in the backend. *)
Definition sample_system : system :=
  {| cache := NewCredCache {| KeyName := "user1" |};
     goroutines := [Running HasCachedToken; Running (@LoadToken nat)] |}.

Definition sample_schedule : list (nat * fate) :=
  [(0%nat, Normal); (1%nat, Normal); (0%nat, Panics);
   (1%nat, Normal); (1%nat, Normal)].

(** The same world with every file under [/locked] refused. *)
Definition sample_open_denied (path : string) (flags perm : Z) (w : Z)
    : (nat * option error) * Z :=
  if String.prefix "/locked/" path
  then ((0%nat, Some "permission denied"%string), w)
  else sample_open path flags perm w.

Definition sample_FS_denied : FileSystem Z nat unit :=
  {| nil_File := 0%nat;
     DEFAULT_FILE_PERM := 420;
     CreateParentDirectoryIfNotExist := sample_mkdir;
     os_OpenFile := sample_open_denied;
     File_Truncate := sample_truncate;
     File_Close := sample_close |}.

(** *** Reading a schedule *)

(** The events of goroutine [i], in order. *)
Fixpoint events_of (i : nat) (evs : list (nat * event)) : list event :=
  match evs with
  | [] => []
  | (j, e) :: evs' =>
      if Nat.eqb j i then e :: events_of i evs' else events_of i evs'
  end.

(** The events a goroutine can still go through, to the end of its call. *)
Definition script (g : goroutine) : list (list event) :=
  match g with
  | Running (Lock _) =>
      [[Acquired; BackendReturned; Released]; [Acquired; BackendPanicked]]
  | Running (Internal _ _) => [[BackendReturned; Released]; [BackendPanicked]]
  | Running (Unlock _) => [[Released]]
  | _ => [[]]
  end.

(** The goroutine has returned from its call. *)
Definition finished (g : goroutine) : bool :=
  match g with
  | Running (Return _) => true
  | _ => false
  end.

(** A schedule on which no internal method panics. *)
Definition calm (sched : list (nat * fate)) : Prop :=
  Forall (fun x => snd x = Normal) sched.




(** What holds as long as no internal method panicked: a locked mutex has
    its holder, and no goroutine is gone. *)
Definition attended (s : system) : Prop :=
  exclusive s /\
  (lock (cache s) = true ->
   exists i g, goroutines s !! i = Some g /\ holds_mutex g = true) /\
  Forall (fun g => g <> Panicked) (goroutines s).

(** Both callers of the sample run to the end, the second first. *)
Definition sample_calm_schedule : list (nat * fate) :=
  [(1%nat, Normal); (0%nat, Normal); (1%nat, Normal); (1%nat, Normal);
   (0%nat, Normal); (0%nat, Normal); (0%nat, Normal)].

(** * Properties *)

(** ** Fixed-width arithmetic *)

Lemma wrap_int64_id (z : Z) : int64_range z -> wrap_int64 z = z.
Proof.
  unfold int64_range, wrap_int64. intros Hz.
  rewrite Z.mod_small by lia. lia.
Qed.

Lemma wrap_int64_range (z : Z) : int64_range (wrap_int64 z).
Proof.
  unfold int64_range, wrap_int64.
  pose proof (Z.mod_pos_bound (z + 2 ^ 63) (2 ^ 64)). lia.
Qed.

Lemma wrap_int64_decomp (z : Z) : exists k, wrap_int64 z = z + k * 2 ^ 64.
Proof.
  exists (- ((z + 2 ^ 63) / 2 ^ 64)). unfold wrap_int64.
  rewrite Z.mod_eq by lia. lia.
Qed.

Lemma wrap_int64_add_mul (z k : Z) : wrap_int64 (z + k * 2 ^ 64) = wrap_int64 z.
Proof.
  unfold wrap_int64.
  replace (z + k * 2 ^ 64 + 2 ^ 63) with (z + 2 ^ 63 + k * 2 ^ 64) by lia.
  now rewrite Z.mod_add by lia.
Qed.

Lemma to_uint32_id (z : Z) : uint32_range z -> to_uint32 z = z.
Proof. unfold uint32_range, to_uint32. intros Hz. now rewrite Z.mod_small. Qed.


Lemma land_low32 (z : Z) : Z.land z 0xFFFFFFFF = z mod 2 ^ 32.
Proof. change 0xFFFFFFFF with (Z.ones 32). apply Z.land_ones. lia. Qed.

Lemma shiftr_32 (z : Z) : Z.shiftr z 32 = z / 2 ^ 32.
Proof. apply Z.shiftr_div_pow2. lia. Qed.

Lemma shiftl_32 (z : Z) : Z.shiftl z 32 = z * 2 ^ 32.
Proof. apply Z.shiftl_mul_pow2. lia. Qed.

(** Two halves that do not overlap are joined by [|] as by [+]. *)
Lemma lor_halves (hi lo : Z) :
  uint32_range lo -> Z.lor (Z.shiftl hi 32) lo = hi * 2 ^ 32 + lo.
Proof.
  intros Hlo.
  assert (Hdisj : Z.land (Z.shiftl hi 32) lo = 0).
  { apply Z.bits_inj'. intros n Hn.
    rewrite Z.land_spec, Z.bits_0.
    destruct (Z.lt_ge_cases n 32) as [Hlt | Hge].
    - rewrite Z.shiftl_spec_low by lia. reflexivity.
    - replace lo with (lo mod 2 ^ 32)
        by (apply Z.mod_small; exact Hlo).
      rewrite Z.mod_pow2_bits_high by lia.
      apply andb_false_r. }
  rewrite <- Z.lxor_lor by exact Hdisj.
  rewrite <- Z.add_nocarry_lxor by exact Hdisj.
  now rewrite shiftl_32.
Qed.

(** The halves of a non-negative 64-bit value put it back together. *)
Lemma halves_join (z : Z) :
  0 <= z < 2 ^ 64 ->
  uint32_range (z / 2 ^ 32) /\ (z / 2 ^ 32) * 2 ^ 32 + z mod 2 ^ 32 = z.
Proof.
  intros Hz. unfold uint32_range. split.
  - split; [apply Z.div_pos; lia |].
    apply Z.div_lt_upper_bound; lia.
  - pose proof (Z.div_mod z (2 ^ 32)). lia.
Qed.

(** ** Time conversion *)

(** The ticks [NsecToFiletime] splits: never wrapped, always positive. *)
Lemma NsecToFiletime_fields (n : Z) :
  int64_range n ->
  let t := n ÷ 100 + TICKS_FROM_WINDOWS_EPOCH_TO_UNIX_EPOCH in
  0 <= t < 2 ^ 63 /\
  LowDateTime (NsecToFiletime n) = t mod 2 ^ 32 /\
  HighDateTime (NsecToFiletime n) = t / 2 ^ 32.
Proof.
  intros Hn t. unfold int64_range in Hn.
  assert (Hq : - 2 ^ 63 <= n ÷ 100 * 100 <= 2 ^ 63).
  { pose proof (Z.quot_rem' n 100).
    pose proof (Z.rem_bound_pos_pos n 100).
    pose proof (Z.rem_bound_pos_neg n 100). lia. }
  assert (Ht : 0 <= t < 2 ^ 63)
    by (subst t; unfold TICKS_FROM_WINDOWS_EPOCH_TO_UNIX_EPOCH; lia).
  split; [exact Ht |].
  unfold NsecToFiletime, quot64, add64, and64, shr64;
    cbn [LowDateTime HighDateTime].
  rewrite (wrap_int64_id (n ÷ 100)) by (unfold int64_range; lia).
  fold t. rewrite (wrap_int64_id t) by (unfold int64_range; lia).
  rewrite land_low32, shiftr_32. unfold to_uint32. split.
  - apply Z.mod_mod. lia.
  - apply Z.mod_small.
    destruct (halves_join t) as [Hr _]; [lia | exact Hr].
Qed.

Lemma Nanoseconds_NsecToFiletime (n : Z) :
  int64_range n -> Nanoseconds (NsecToFiletime n) = 100 * (n ÷ 100).
Proof.
  intros Hn.
  destruct (NsecToFiletime_fields n Hn) as (Ht & Hlo & Hhi).
  set (t := n ÷ 100 + TICKS_FROM_WINDOWS_EPOCH_TO_UNIX_EPOCH) in *.
  destruct (halves_join t) as [Hr Hjoin]; [lia |].
  assert (Hm : 0 <= t mod 2 ^ 32 < 2 ^ 32) by (apply Z.mod_pos_bound; lia).
  unfold int64_range, uint32_range in *.
  assert (Hq : - 2 ^ 63 <= n ÷ 100 * 100 < 2 ^ 63).
  { pose proof (Z.quot_rem' n 100).
    pose proof (Z.rem_bound_pos_pos n 100).
    pose proof (Z.rem_bound_pos_neg n 100). lia. }
  unfold Nanoseconds, add64, sub64, mul64, shl64, to_int64.
  rewrite Hlo, Hhi.
  rewrite (wrap_int64_id (t / 2 ^ 32)) by (unfold int64_range; lia).
  rewrite shiftl_32.
  rewrite (wrap_int64_id (t / 2 ^ 32 * 2 ^ 32)) by (unfold int64_range; lia).
  rewrite (wrap_int64_id (t mod 2 ^ 32)) by (unfold int64_range; lia).
  rewrite Hjoin.
  rewrite (wrap_int64_id t) by (unfold int64_range; lia).
  replace (t - TICKS_FROM_WINDOWS_EPOCH_TO_UNIX_EPOCH) with (n ÷ 100)
    by (subst t; lia).
  rewrite (wrap_int64_id (n ÷ 100)) by (unfold int64_range; lia).
  rewrite wrap_int64_id by (unfold int64_range; lia).
  lia.
Qed.

(** C1 (as amended): for every [int64] count of nanoseconds [n], the
    round trip through [NsecToFiletime] and [Nanoseconds] gives [n] cut
    toward zero to a multiple of 100: [n] itself when [n] is a multiple of
    100, the nearest lower multiple when [n] is not negative, and the
    nearest higher multiple when [n] is negative and not a multiple. *)
Theorem roundtrip_truncates_toward_zero (n : Z) :
  int64_range n ->
  Nanoseconds (NsecToFiletime n) = 100 * (n ÷ 100) /\
  (n mod 100 = 0 -> Nanoseconds (NsecToFiletime n) = n) /\
  (0 <= n -> Nanoseconds (NsecToFiletime n) = 100 * (n / 100)) /\
  (n < 0 -> n mod 100 <> 0 ->
   Nanoseconds (NsecToFiletime n) = 100 * (n / 100) + 100).
Proof.
  intros Hn. rewrite (Nanoseconds_NsecToFiletime n Hn).
  pose proof (Z.quot_rem' n 100) as Hqr.
  pose proof (Z.div_mod n 100) as Hdm.
  pose proof (Z.mod_pos_bound n 100) as Hmb.
  split; [reflexivity |]. split; [| split].
  - intros Hm.
    pose proof (Z.rem_bound_pos_pos n 100).
    pose proof (Z.rem_bound_pos_neg n 100). lia.
  - intros Hpos. rewrite Z.quot_div_nonneg by lia. reflexivity.
  - intros Hneg Hm.
    pose proof (Z.rem_bound_pos_neg n 100). lia.
Qed.

Lemma roundtrip_truncates_toward_zero_witness :
  int64_range (-250) /\
  Nanoseconds (NsecToFiletime (-250)) = 100 * (-250 ÷ 100) /\
  (-250 mod 100 = 0 -> Nanoseconds (NsecToFiletime (-250)) = -250) /\
  (0 <= -250 -> Nanoseconds (NsecToFiletime (-250)) = 100 * (-250 / 100)) /\
  (-250 < 0 -> -250 mod 100 <> 0 ->
   Nanoseconds (NsecToFiletime (-250)) = 100 * (-250 / 100) + 100).
Proof.
  assert (H : int64_range (-250)) by (unfold int64_range; lia).
  split; [exact H | apply (roundtrip_truncates_toward_zero (-250) H)].
Defined.

(** C1 (as stated) fails at [n = -1]: the round trip gives [0], the
    nearest lower multiple of 100 is [-100]. *)
Lemma roundtrip_lower_counterexample : ~ spec_roundtrip_lower (-1).
Proof.
  unfold spec_roundtrip_lower. intros H.
  assert (Hr : int64_range (-1)) by (unfold int64_range; lia).
  destruct (H Hr) as [_ Hlow].
  assert (Hne : -1 mod 100 <> 0) by (vm_compute; discriminate).
  specialize (Hlow Hne). vm_compute in Hlow. discriminate.
Qed.

(** C2: [NsecToFiletime 0] is the [Filetime] whose 64-bit tick value
    [(HighDateTime<<32)|LowDateTime] is exactly 116444736000000000. *)
Theorem NsecToFiletime_unix_epoch :
  Filetime_ticks (NsecToFiletime 0) = 116444736000000000 /\
  Filetime_ticks (NsecToFiletime 0) = TICKS_FROM_WINDOWS_EPOCH_TO_UNIX_EPOCH.
Proof. split; vm_compute; reflexivity. Qed.

(** [Nanoseconds] wraps once: the wrap-arounds of its steps add up to the
    wrap-around of the whole expression. *)
Lemma Nanoseconds_wrapped (ft : Filetime) :
  Nanoseconds ft
  = wrap_int64 ((HighDateTime ft * 2 ^ 32 + LowDateTime ft
                 - TICKS_FROM_WINDOWS_EPOCH_TO_UNIX_EPOCH) * 100).
Proof.
  unfold Nanoseconds, add64, sub64, mul64, shl64, to_int64.
  destruct (wrap_int64_decomp (HighDateTime ft)) as [k1 ->].
  destruct (wrap_int64_decomp (LowDateTime ft)) as [k2 ->].
  rewrite shiftl_32.
  destruct (wrap_int64_decomp ((HighDateTime ft + k1 * 2 ^ 64) * 2 ^ 32))
    as [k3 ->].
  match goal with
  | |- context [wrap_int64 (?a + ?b) - _] =>
      destruct (wrap_int64_decomp (a + b)) as [k4 ->]
  end.
  match goal with
  | |- context [wrap_int64 (?a - ?b) * _] =>
      destruct (wrap_int64_decomp (a - b)) as [k5 ->]
  end.
  symmetry.
  rewrite <- (wrap_int64_add_mul _ ((k1 * 2 ^ 32 + k2 + k3 + k4 + k5) * 100)).
  f_equal. ring.
Qed.

(** C3 (as amended): for every [Filetime], [Nanoseconds] is
    [((HighDateTime<<32)+LowDateTime - 116444736000000000) * 100] in
    64-bit signed arithmetic; for every [Filetime] whose tick value is
    below the epoch offset and not below 24211015631452242 the result is
    the exact negative count of nanoseconds. *)
Theorem Nanoseconds_before_1970 (ft : Filetime) :
  Filetime_wf ft ->
  Nanoseconds ft
    = wrap_int64
        ((Filetime_ticks ft - TICKS_FROM_WINDOWS_EPOCH_TO_UNIX_EPOCH) * 100) /\
  (FIRST_EXACT_TICK <= Filetime_ticks ft
                     < TICKS_FROM_WINDOWS_EPOCH_TO_UNIX_EPOCH ->
   Nanoseconds ft
     = (Filetime_ticks ft - TICKS_FROM_WINDOWS_EPOCH_TO_UNIX_EPOCH) * 100 /\
   Nanoseconds ft < 0).
Proof.
  intros [Hlo Hhi]. unfold Filetime_ticks.
  rewrite (lor_halves _ _ Hlo), Nanoseconds_wrapped.
  split; [reflexivity |].
  unfold FIRST_EXACT_TICK, TICKS_FROM_WINDOWS_EPOCH_TO_UNIX_EPOCH.
  intros Hticks.
  rewrite wrap_int64_id by (unfold int64_range; lia).
  split; [reflexivity | lia].
Qed.

Lemma Nanoseconds_before_1970_witness :
  let ft := {| LowDateTime := 3577642998; HighDateTime := 27111902 |} in
  Filetime_wf ft /\
  (FIRST_EXACT_TICK <= Filetime_ticks ft
                     < TICKS_FROM_WINDOWS_EPOCH_TO_UNIX_EPOCH) /\
  Nanoseconds ft = -1000.
Proof.
  intros ft.
  assert (Hwf : Filetime_wf ft)
    by (unfold Filetime_wf, uint32_range; cbn; lia).
  assert (Hticks : FIRST_EXACT_TICK <= Filetime_ticks ft
                   < TICKS_FROM_WINDOWS_EPOCH_TO_UNIX_EPOCH)
    by (vm_compute; split; [discriminate | reflexivity]).
  split; [exact Hwf |]. split; [exact Hticks |].
  destruct (Nanoseconds_before_1970 ft Hwf) as [_ Hexact].
  destruct (Hexact Hticks) as [-> _]. reflexivity.
Defined.

(** C3 (as stated) fails at the first [Filetime] of all, 1601-01-01: its
    distance to 1970 in nanoseconds does not fit an [int64], and
    [Nanoseconds] wraps to a positive number. *)
Lemma exact_before_1970_counterexample :
  ~ spec_exact_before_1970 {| LowDateTime := 0; HighDateTime := 0 |}.
Proof.
  unfold spec_exact_before_1970. intros H.
  assert (Hwf : Filetime_wf {| LowDateTime := 0; HighDateTime := 0 |})
    by (unfold Filetime_wf, uint32_range; cbn; lia).
  destruct (H Hwf) as [Heq _]; [vm_compute; reflexivity |].
  vm_compute in Heq. discriminate.
Qed.

(** ** File information *)

(** A query succeeds exactly when [stat] does. *)
Lemma GetFileInformation_success (unix_Stat : string -> StatOutcome)
    (path : string) (isNFSCopy : bool) :
  snd (GetFileInformation unix_Stat path isNFSCopy) = None ->
  exists st, unix_Stat path = StatOk st.
Proof.
  unfold GetFileInformation. destruct (unix_Stat path) as [err | st].
  - cbn. discriminate.
  - intros _. exists st. reflexivity.
Qed.

Lemma GetFileInformation_attributes (unix_Stat : string -> StatOutcome)
    (path : string) (isNFSCopy : bool) (st : Stat_t) :
  unix_Stat path = StatOk st ->
  FileAttributes (fst (GetFileInformation unix_Stat path isNFSCopy))
  = if Z.land (Mode st) S_IFMT =? S_IFDIR then 0x10 else 0x80.
Proof.
  intros Hst. unfold GetFileInformation. rewrite Hst. cbn.
  destruct (Z.land (Mode st) S_IFMT =? S_IFDIR); reflexivity.
Qed.

(** C4: for every successful query, a directory has bit 0x10 set and bit
    0x80 clear, anything else has 0x80 set and 0x10 clear; no result has
    both bits or neither. *)
Theorem GetFileInformation_directory_xor_normal
    (unix_Stat : string -> StatOutcome) (path : string) (isNFSCopy : bool) :
  snd (GetFileInformation unix_Stat path isNFSCopy) = None ->
  exists st,
    unix_Stat path = StatOk st /\
    let attrs :=
      FileAttributes (fst (GetFileInformation unix_Stat path isNFSCopy)) in
    (Z.land (Mode st) S_IFMT = S_IFDIR ->
     Z.land attrs 0x10 = 0x10 /\ Z.land attrs 0x80 = 0) /\
    (Z.land (Mode st) S_IFMT <> S_IFDIR ->
     Z.land attrs 0x80 = 0x80 /\ Z.land attrs 0x10 = 0) /\
    Z.testbit attrs 4 = negb (Z.testbit attrs 7).
Proof.
  intros Hok.
  destruct (GetFileInformation_success _ _ _ Hok) as [st Hst].
  exists st. split; [exact Hst |].
  rewrite (GetFileInformation_attributes _ _ _ _ Hst). cbv zeta.
  destruct (Z.eqb_spec (Z.land (Mode st) S_IFMT) S_IFDIR) as [Hdir | Hnot].
  - split; [| split].
    + intros _. split; reflexivity.
    + intros Hne. contradiction.
    + reflexivity.
  - split; [| split].
    + intros Hdir. contradiction.
    + intros _. split; reflexivity.
    + reflexivity.
Qed.

Lemma GetFileInformation_directory_xor_normal_witness :
  snd (GetFileInformation sample_Stat "/data" false) = None /\
  Z.land (FileAttributes (fst (GetFileInformation sample_Stat "/data" false)))
         0x10 = 0x10 /\
  Z.land (FileAttributes (fst (GetFileInformation sample_Stat "/data" false)))
         0x80 = 0.
Proof.
  assert (Hok : snd (GetFileInformation sample_Stat "/data" false) = None)
    by reflexivity.
  split; [exact Hok |].
  destruct (GetFileInformation_directory_xor_normal _ _ _ Hok)
    as (st & Hst & Hdir & _).
  change (sample_Stat "/data") with (StatOk sample_dir) in Hst.
  injection Hst as <-. apply Hdir. reflexivity.
Defined.

(** C5: for every successful query, [FileSizeHigh] and [FileSizeLow] are
    the high and the low 32 bits of the size as a [uint64]; a file of
    [2^32 + 5] bytes has [FileSizeLow = 5] and [FileSizeHigh = 1]. *)
Theorem GetFileInformation_size_halves
    (unix_Stat : string -> StatOutcome) (path : string) (isNFSCopy : bool) :
  snd (GetFileInformation unix_Stat path isNFSCopy) = None ->
  exists st,
    unix_Stat path = StatOk st /\
    let info := fst (GetFileInformation unix_Stat path isNFSCopy) in
    let size := to_uint64 (Size st) in
    FileSizeHigh info = size / 2 ^ 32 /\
    FileSizeLow info = size mod 2 ^ 32 /\
    uint32_range (FileSizeHigh info) /\
    uint32_range (FileSizeLow info) /\
    FileSizeHigh info * 2 ^ 32 + FileSizeLow info = size /\
    (Size st = 2 ^ 32 + 5 -> FileSizeLow info = 5 /\ FileSizeHigh info = 1).
Proof.
  intros Hok.
  destruct (GetFileInformation_success _ _ _ Hok) as [st Hst].
  exists st. split; [exact Hst |]. cbv zeta.
  unfold GetFileInformation. rewrite Hst.
  cbn [fst FileSizeHigh FileSizeLow]. unfold shru64, andu64.
  rewrite land_low32, shiftr_32.
  assert (Hsize : 0 <= to_uint64 (Size st) < 2 ^ 64)
    by (apply Z.mod_pos_bound; lia).
  destruct (halves_join _ Hsize) as [Hhi Hjoin].
  rewrite (to_uint32_id _ Hhi).
  assert (Hlo : to_uint32 (to_uint64 (Size st) mod 2 ^ 32)
                = to_uint64 (Size st) mod 2 ^ 32)
    by (unfold to_uint32; apply Z.mod_mod; lia).
  rewrite Hlo.
  repeat (split; [first [reflexivity | assumption
                        | apply Z.mod_pos_bound; lia] |]).
  intros ->. vm_compute. split; reflexivity.
Qed.

Lemma GetFileInformation_size_halves_witness :
  snd (GetFileInformation sample_Stat "/data/big.bin" true) = None /\
  FileSizeLow (fst (GetFileInformation sample_Stat "/data/big.bin" true)) = 5 /\
  FileSizeHigh (fst (GetFileInformation sample_Stat "/data/big.bin" true)) = 1.
Proof.
  assert (Hok : snd (GetFileInformation sample_Stat "/data/big.bin" true)
                = None) by reflexivity.
  split; [exact Hok |].
  destruct (GetFileInformation_size_halves _ _ _ Hok)
    as (st & Hst & _ & _ & _ & _ & _ & Hbig).
  change (sample_Stat "/data/big.bin") with (StatOk sample_file) in Hst.
  injection Hst as <-. apply Hbig. reflexivity.
Defined.

(** C10: [GetFileInformation] does not depend on [isNFSCopy]: for every
    path and every answer of [stat], both values of the flag give the
    same record and the same error. *)
Theorem GetFileInformation_ignores_isNFSCopy
    (unix_Stat : string -> StatOutcome) (path : string) :
  GetFileInformation unix_Stat path true
  = GetFileInformation unix_Stat path false.
Proof.
  unfold GetFileInformation. destruct (unix_Stat path); reflexivity.
Qed.

(** ** Creating a file of a given size *)

Section SizedFileProperties.
Context {World File Tracker : Type} `{FS : FileSystem World File Tracker}.

Implicit Types (path : string) (fileSize : Z) (t : Tracker) (w : World).

(** Up to the open: the directory is made, then the file is opened with
    the flags of the write-through option. *)
Lemma CreateFile_opened path fileSize writeThrough t forceIfReadOnly
    w w1 w2 f err :
  CreateParentDirectoryIfNotExist path t w = (None, w1) ->
  os_OpenFile path (open_flags writeThrough) DEFAULT_FILE_PERM w1
    = ((f, err), w2) ->
  run_IO (CreateFileOfSizeWithWriteThroughOption path fileSize
            writeThrough t forceIfReadOnly) w
  = match err with
    | Some e => ret (nil_File, Some e)
    | None =>
        if fileSize =? 0 then ret (f, err)
        else
          bind (truncate f fileSize) (fun err =>
          match err with
          | Some e => bind (close f) (fun _ => ret (nil_File, Some e))
          | None => ret (f, None)
          end)
    end (w2, [CallCreateParentDirectory path t;
              CallOpenFile path (open_flags writeThrough) DEFAULT_FILE_PERM]).
Proof.
  intros Hdir Hopen.
  unfold run_IO, CreateFileOfSizeWithWriteThroughOption, bind,
    createParentDirectoryIfNotExist, openFile, call.
  cbn [fst snd]. rewrite Hdir.
  destruct writeThrough; cbn [open_flags] in Hopen;
    cbn [fst snd app]; rewrite Hopen; reflexivity.
Qed.

(** C6: with [fileSize = 0] the handle just opened is returned at once
    and nothing is resized; with [fileSize <> 0] and a failing resize the
    handle is closed, whatever the close answers, and the error of the
    resize is returned with no handle; and no handle ever comes with an
    error. *)
Theorem CreateFile_zero_size_and_failed_resize
    path fileSize writeThrough t forceIfReadOnly w w1 w2 f :
  CreateParentDirectoryIfNotExist path t w = (None, w1) ->
  os_OpenFile path (open_flags writeThrough) DEFAULT_FILE_PERM w1
    = ((f, None), w2) ->
  let opened :=
    [CallCreateParentDirectory path t;
     CallOpenFile path (open_flags writeThrough) DEFAULT_FILE_PERM] in
  let result :=
    run_IO (CreateFileOfSizeWithWriteThroughOption path fileSize
              writeThrough t forceIfReadOnly) w in
  (fileSize = 0 -> result = ((f, None), (w2, opened))) /\
  (forall e w3,
     fileSize <> 0 ->
     File_Truncate f fileSize w2 = (Some e, w3) ->
     result
     = ((nil_File, Some e),
        (snd (File_Close f w3),
         opened ++ [CallTruncate f fileSize; CallClose f]))) /\
  (forall e, snd (fst result) = Some e -> fst (fst result) = nil_File) /\
  (fileSize <> 0 -> snd (fst result) = None ->
   exists w3,
     File_Truncate f fileSize w2 = (None, w3) /\
     result = ((f, None), (w3, opened ++ [CallTruncate f fileSize]))).
Proof.
  intros Hdir Hopen opened result. subst result.
  rewrite (CreateFile_opened _ fileSize _ _ forceIfReadOnly _ _ _ _ _
             Hdir Hopen).
  split; [| split; [| split]].
  - intros ->. reflexivity.
  - intros e w3 Hsize Htrunc.
    apply Z.eqb_neq in Hsize. rewrite Hsize.
    unfold bind, truncate, close, call, ret. cbn [fst snd].
    rewrite Htrunc. cbn [fst snd].
    destruct (File_Close f w3) as [cerr w4]. reflexivity.
  - intros e. destruct (fileSize =? 0); [cbn; discriminate |].
    unfold bind, truncate, close, call, ret. cbn [fst snd].
    destruct (File_Truncate f fileSize w2) as [[e' |] w3]; cbn [fst snd].
    + destruct (File_Close f w3) as [cerr w4]. reflexivity.
    + discriminate.
  - intros Hsize. apply Z.eqb_neq in Hsize. rewrite Hsize.
    unfold bind, truncate, close, call, ret. cbn [fst snd].
    destruct (File_Truncate f fileSize w2) as [[e' |] w3]; cbn [fst snd].
    + destruct (File_Close f w3) as [cerr w4]. cbn. discriminate.
    + intros _. exists w3. split; reflexivity.
Qed.

(** C7: an error of [CreateParentDirectoryIfNotExist] is returned as it
    is, with no handle, and nothing else was called: no file was
    opened. *)
Theorem CreateFile_directory_error
    path fileSize writeThrough t forceIfReadOnly w w1 e :
  CreateParentDirectoryIfNotExist path t w = (Some e, w1) ->
  run_IO (CreateFileOfSizeWithWriteThroughOption path fileSize
            writeThrough t forceIfReadOnly) w
  = ((nil_File, Some e), (w1, [CallCreateParentDirectory path t])).
Proof.
  intros Hdir.
  unfold run_IO, CreateFileOfSizeWithWriteThroughOption, bind,
    createParentDirectoryIfNotExist, call.
  cbn [fst snd]. rewrite Hdir. reflexivity.
Qed.
End SizedFileProperties.

Lemma CreateFile_zero_size_and_failed_resize_witness :
  run_IO
    (CreateFileOfSizeWithWriteThroughOption (FS := sample_FS)
       "/tmp/out.bin" 4096 true tt false)
    100
  = ((0%nat, Some "no space left on device"%string),
     (100,
      [CallCreateParentDirectory "/tmp/out.bin" tt;
       CallOpenFile "/tmp/out.bin" 0x682 420;
       CallTruncate 3%nat 4096;
       CallClose 3%nat])).
Proof.
  refine (proj1 (proj2
    (CreateFile_zero_size_and_failed_resize (FS := sample_FS)
       "/tmp/out.bin" 4096 true tt false 100 100 100 3%nat _ _))
    "no space left on device"%string 100 _ _).
  - reflexivity.
  - reflexivity.
  - lia.
  - reflexivity.
Defined.

Lemma CreateFile_directory_error_witness :
  run_IO
    (CreateFileOfSizeWithWriteThroughOption (FS := sample_FS)
       "/ro/out.bin" 4096 false tt false)
    100
  = ((0%nat, Some "read-only file system"%string),
     (100, [CallCreateParentDirectory "/ro/out.bin" tt])).
Proof.
  apply (CreateFile_directory_error (FS := sample_FS)
           "/ro/out.bin" 4096 false tt false 100 100).
  reflexivity.
Defined.

(** ** The credential cache, one caller at a time *)

Lemma unlock_after_lock (c : CredCache) :
  lock c = false -> set_lock false (set_lock true c) = c.
Proof. destruct c as [k l p]. cbn. intros ->. reflexivity. Qed.

Section StubBackend.
Context {OAuthTokenInfo : Type}.

Implicit Types (c : CredCache) (token : OAuthTokenInfo).

Lemma run_HasCachedToken c :
  lock c = false -> run HasCachedToken c = Returns (false, None) c.
Proof.
  intros Hfree. cbn. rewrite Hfree. cbn.
  now rewrite (unlock_after_lock c Hfree).
Qed.

Lemma run_RemoveCachedToken c :
  lock c = false -> run RemoveCachedToken c = Returns None c.
Proof.
  intros Hfree. cbn. rewrite Hfree. cbn.
  now rewrite (unlock_after_lock c Hfree).
Qed.

Lemma run_SaveToken token c :
  lock c = false -> run (SaveToken token) c = Returns None c.
Proof.
  intros Hfree. cbn. rewrite Hfree. cbn.
  now rewrite (unlock_after_lock c Hfree).
Qed.

Lemma run_LoadToken c :
  lock c = false ->
  run (@LoadToken OAuthTokenInfo) c = Returns (None, None) c.
Proof.
  intros Hfree. cbn. rewrite Hfree. cbn.
  now rewrite (unlock_after_lock c Hfree).
Qed.

Lemma perform_stub (r : request OAuthTokenInfo) c :
  lock c = false -> perform r c = Returns (stub_reply r) c.
Proof.
  intros Hfree. destruct r as [| | token |]; unfold perform.
  - now rewrite run_HasCachedToken.
  - now rewrite run_RemoveCachedToken.
  - now rewrite run_SaveToken.
  - now rewrite run_LoadToken.
Qed.

Lemma perform_all_stub (rs : list (request OAuthTokenInfo)) c :
  lock c = false -> perform_all rs c = Returns (map stub_reply rs) c.
Proof.
  intros Hfree. induction rs as [| r rs IH]; [reflexivity |].
  cbn [perform_all map]. rewrite (perform_stub r c Hfree). cbn.
  rewrite IH. reflexivity.
Qed.

(** C8: on the stub backend, every cache whose mutex is free (as
    [NewCredCache] makes it) answers every sequence of calls with the
    stub's values and is left as it was: after any such sequence
    [HasCachedToken] returns [(false, nil)], [LoadToken] returns
    [(nil, nil)], [RemoveCachedToken] and [SaveToken] return [nil], and
    [LoadToken] right after a [SaveToken] that returned [nil] still
    returns [(nil, nil)]. *)
Theorem stub_backend_replies (c0 : CredCache)
    (history : list (request OAuthTokenInfo)) :
  lock c0 = false ->
  exists c,
    perform_all history c0 = Returns (map stub_reply history) c /\
    run HasCachedToken c = Returns (false, None) c /\
    run (@LoadToken OAuthTokenInfo) c = Returns (None, None) c /\
    run RemoveCachedToken c = Returns None c /\
    (forall token, run (SaveToken token) c = Returns None c) /\
    (forall token,
       outcome_bind (run (SaveToken token) c) (fun saved c' =>
       outcome_bind (run (@LoadToken OAuthTokenInfo) c') (fun loaded c'' =>
       Returns (saved, loaded) c''))
       = Returns (None, (None, None)) c).
Proof.
  intros Hfree. exists c0.
  split; [exact (perform_all_stub history _ Hfree) |].
  split; [exact (run_HasCachedToken _ Hfree) |].
  split; [exact (run_LoadToken _ Hfree) |].
  split; [exact (run_RemoveCachedToken _ Hfree) |].
  split; [intros token; exact (run_SaveToken token _ Hfree) |].
  intros token. rewrite (run_SaveToken token _ Hfree). cbn [outcome_bind].
  rewrite (run_LoadToken _ Hfree). reflexivity.
Qed.
End StubBackend.

Lemma stub_backend_replies_witness :
  lock (NewCredCache {| KeyName := "user1" |}) = false /\
  perform_all [ReqSaveToken "tok"%string; ReqLoadToken]
              (NewCredCache {| KeyName := "user1" |})
  = Returns [RepSaveToken None; RepLoadToken None None]
            (NewCredCache {| KeyName := "user1" |}).
Proof.
  assert (Hfree : lock (NewCredCache {| KeyName := "user1" |}) = false)
    by reflexivity.
  split; [exact Hfree |].
  destruct (stub_backend_replies (NewCredCache {| KeyName := "user1" |})
              [ReqSaveToken "tok"%string; ReqLoadToken] Hfree)
    as (c & Hall & _).
  rewrite Hall. f_equal.
  cbn in Hall. injection Hall as <-. reflexivity.
Defined.

(** ** The credential cache, goroutines sharing it *)

Lemma public_call_locks_first (g : goroutine) :
  public_call g -> exists (R : Type) (p : prog R), g = Running p /\ locks_first p.
Proof.
  intros [| | T token | T]; eexists _, _; (split; [reflexivity |]); cbn.
  - intros [has err]. exact I.
  - intros err. exact I.
  - intros err. exact I.
  - intros [token err]. exact I.
Qed.

Lemma locks_first_waits {R : Type} (p : prog R) :
  locks_first p -> holds_mutex (Running p) = false.
Proof. destruct p; cbn; intros H; (reflexivity || contradiction). Qed.

Lemma in_backend_holds_mutex (g : goroutine) :
  in_backend g = true -> holds_mutex g = true.
Proof.
  destruct g as [R p |]; [destruct p |]; cbn; congruence.
Qed.

(** What one step of a goroutine on the protocol does to the mutex. *)
Lemma goroutine_step_protocol (f : fate) (c c' : CredCache)
    (g g' : goroutine) (e : event) :
  on_protocol g ->
  goroutine_step f c g = Some (e, c', g') ->
  on_protocol g' /\
  match e with
  | Acquired =>
      lock c = false /\ lock c' = true /\
      holds_mutex g = false /\ holds_mutex g' = true
  | BackendReturned =>
      c' = c /\ holds_mutex g = true /\ holds_mutex g' = true
  | BackendPanicked =>
      c' = c /\ holds_mutex g = true /\ g' = Panicked
  | Released =>
      lock c = true /\ lock c' = false /\
      holds_mutex g = true /\ holds_mutex g' = false
  end.
Proof.
  intros Hg Hstep.
  destruct g as [R p |]; [| discriminate].
  destruct p as [r | k | k | A body k]; cbn in Hstep, Hg.
  - discriminate.
  - destruct (lock c) eqn:Hlock; [discriminate |].
    injection Hstep as <- <- <-.
    destruct Hg as [Hk | [[] | [[] | []]]].
    split; [cbn; tauto |].
    destruct k; cbn in Hk; try contradiction. now cbn.
  - destruct (lock c) eqn:Hlock; [| discriminate].
    injection Hstep as <- <- <-.
    destruct Hg as [[] | [[] | [Hk | []]]].
    split; [cbn; tauto |].
    destruct k; cbn in Hk; try contradiction. now cbn.
  - destruct Hg as [[] | [Hk | [[] | []]]].
    destruct f; injection Hstep as <- <- <-.
    + specialize (Hk (body c)). split; [cbn; tauto |].
      destruct (k (body c)); cbn in Hk; try contradiction. now cbn.
    + split; [exact I | now cbn].
Qed.

Lemma system_step_cases (i : nat) (f : fate) (s : system) :
  system_step i f s = (None, s) \/
  exists g e c' g',
    goroutines s !! i = Some g /\
    goroutine_step f (cache s) g = Some (e, c', g') /\
    system_step i f s
    = (Some (i, e),
       {| cache := c'; goroutines := <[i := g']> (goroutines s) |}).
Proof.
  unfold system_step.
  destruct (goroutines s !! i) as [g |] eqn:Hi; [| now left].
  destruct (goroutine_step f (cache s) g) as [[[e c'] g'] |] eqn:Hstep;
    [| now left].
  right. exists g, e, c', g'. auto.
Qed.

Lemma initial_exclusive (s : system) : initial s -> exclusive s.
Proof.
  intros [Hfree Hcalls].
  assert (Hwait : forall i g, goroutines s !! i = Some g ->
                              on_protocol g /\ holds_mutex g = false).
  { intros i g Hi.
    destruct (public_call_locks_first g (Forall_lookup_1 _ _ _ _ Hcalls Hi))
      as (R & p & -> & Hp).
    split; [cbn; tauto | exact (locks_first_waits p Hp)]. }
  split; [| split].
  - apply Forall_lookup. intros i g Hi. apply (Hwait i g Hi).
  - intros _ i g Hi. apply (Hwait i g Hi).
  - intros i j gi gj Hi _ Hhold _. destruct (Hwait i gi Hi). congruence.
Qed.

(** The goroutines after goroutine [i] became [g']: [g'] at [i], the
    others as before. *)
Lemma lookup_after_step (gs : list goroutine) (i j : nat) (g g' gj : goroutine) :
  gs !! i = Some g ->
  <[i := g']> gs !! j = Some gj ->
  (j = i /\ gj = g') \/ (j <> i /\ gs !! j = Some gj).
Proof.
  intros Hi Hj. destruct (decide (i = j)) as [<- | Hne].
  - rewrite list_lookup_insert_eq in Hj by (eapply lookup_lt_Some; eauto).
    left. split; congruence.
  - rewrite list_lookup_insert_ne in Hj by exact Hne. right. auto.
Qed.

(** The same, without the event: the mutex is taken free, or kept by its
    holder, or released by its holder. *)
Lemma goroutine_step_mutex (f : fate) (c c' : CredCache)
    (g g' : goroutine) (e : event) :
  on_protocol g ->
  goroutine_step f c g = Some (e, c', g') ->
  (lock c = false /\ lock c' = true /\
   holds_mutex g = false /\ holds_mutex g' = true) \/
  (lock c' = lock c /\ holds_mutex g = true) \/
  (lock c = true /\ lock c' = false /\
   holds_mutex g = true /\ holds_mutex g' = false).
Proof.
  intros Hg Hstep.
  destruct (goroutine_step_protocol _ _ _ _ _ _ Hg Hstep) as [_ He].
  destruct e.
  - left. exact He.
  - right. left. destruct He as (-> & Hh & _). auto.
  - right. left. destruct He as (-> & Hh & _). auto.
  - right. right. exact He.
Qed.

Lemma system_step_exclusive (i : nat) (f : fate) (s : system) :
  exclusive s -> exclusive (snd (system_step i f s)).
Proof.
  intros (Hproto & Hfree & Hone).
  destruct (system_step_cases i f s)
    as [-> | (g & e & c' & g' & Hi & Hstep & ->)];
    [exact (conj Hproto (conj Hfree Hone)) |].
  cbn [snd].
  pose proof (Forall_lookup_1 _ _ _ _ Hproto Hi) as Hg.
  destruct (goroutine_step_protocol _ _ _ _ _ _ Hg Hstep) as [Hg' _].
  pose proof (goroutine_step_mutex _ _ _ _ _ _ Hg Hstep) as Hm.
  split; [| split]; cbn [cache goroutines].
  - apply Forall_insert; assumption.
  - intros Hfree' j gj Hj.
    destruct Hm as [(Hl & Hl' & Hh & Hh') | [(Hl & Hh) | (Hl & Hl' & Hh & Hh')]].
    + congruence.
    + rewrite Hfree' in Hl. symmetry in Hl.
      pose proof (Hfree Hl i g Hi). congruence.
    + destruct (lookup_after_step _ _ _ _ _ _ Hi Hj) as [[-> ->] | [Hne Hj']];
        [exact Hh' |].
      destruct (holds_mutex gj) eqn:Hhold; [| reflexivity].
      exfalso. apply Hne. exact (Hone j i gj g Hj' Hi Hhold Hh).
  - intros j1 j2 g1 g2 Hj1 Hj2 Hh1 Hh2.
    assert (Hnew : forall j gj,
               j <> i -> goroutines s !! j = Some gj ->
               holds_mutex gj = true -> holds_mutex g' = true -> False).
    { intros j gj Hne Hj Hhj Hhg'.
      destruct Hm
        as [(Hl & Hl' & Hh & Hh') | [(Hl & Hh) | (Hl & Hl' & Hh & Hh')]].
      - pose proof (Hfree Hl j gj Hj). congruence.
      - apply Hne. exact (Hone j i gj g Hj Hi Hhj Hh).
      - congruence. }
    destruct (lookup_after_step _ _ _ _ _ _ Hi Hj1) as [[-> ->] | [Hne1 Hj1']];
      destruct (lookup_after_step _ _ _ _ _ _ Hi Hj2) as [[-> ->] | [Hne2 Hj2']].
    + reflexivity.
    + exfalso. exact (Hnew j2 g2 Hne2 Hj2' Hh2 Hh1).
    + exfalso. exact (Hnew j1 g1 Hne1 Hj1' Hh1 Hh2).
    + exact (Hone j1 j2 g1 g2 Hj1' Hj2' Hh1 Hh2).
Qed.

Lemma exec_exclusive (sched : list (nat * fate)) (s : system) :
  exclusive s -> exclusive (snd (exec sched s)).
Proof.
  revert s. induction sched as [| [i f] sched IH]; intros s Hs; [exact Hs |].
  cbn [exec].
  pose proof (system_step_exclusive i f s Hs) as Hs'.
  destruct (system_step i f s) as [o s']. cbn [snd] in Hs'.
  specialize (IH s' Hs').
  destruct (exec sched s') as [evs s'']. exact IH.
Qed.

(** Once the mutex is abandoned nothing moves any more. *)
Lemma abandoned_stuck (i : nat) (f : fate) (s : system) :
  abandoned s -> system_step i f s = (None, s).
Proof.
  intros (Hproto & Hlocked & Hnone).
  destruct (system_step_cases i f s)
    as [-> | (g & e & c' & g' & Hi & Hstep & _)]; [reflexivity |].
  exfalso.
  pose proof (Forall_lookup_1 _ _ _ _ Hproto Hi) as Hg.
  pose proof (Hnone i g Hi) as Hh.
  destruct (goroutine_step_mutex _ _ _ _ _ _ Hg Hstep)
    as [(Hl & _) | [(_ & Hh') | (_ & _ & Hh' & _)]]; congruence.
Qed.

Lemma abandoned_exec (sched : list (nat * fate)) (s : system) :
  abandoned s -> exec sched s = ([], s).
Proof.
  intros Hs. induction sched as [| [i f] sched IH]; [reflexivity |].
  cbn [exec]. rewrite (abandoned_stuck i f s Hs), IH. reflexivity.
Qed.

(** A panic in the backend abandons the mutex. *)
Lemma panic_abandons (i j : nat) (f : fate) (s s' : system) :
  exclusive s ->
  system_step i f s = (Some (j, BackendPanicked), s') ->
  abandoned s'.
Proof.
  intros (Hproto & Hfree & Hone) Hsys.
  destruct (system_step_cases i f s)
    as [Hnone | (g & e & c' & g' & Hi & Hstep & Heq)];
    [rewrite Hnone in Hsys; discriminate |].
  rewrite Heq in Hsys. injection Hsys as _ -> <-.
  pose proof (Forall_lookup_1 _ _ _ _ Hproto Hi) as Hg.
  destruct (goroutine_step_protocol _ _ _ _ _ _ Hg Hstep)
    as (Hg' & -> & Hh & ->).
  split; [| split]; cbn [cache goroutines].
  - apply Forall_insert; assumption.
  - destruct (lock (cache s)) eqn:Hl; [reflexivity |].
    pose proof (Hfree eq_refl i g Hi). congruence.
  - intros k gk Hk.
    destruct (lookup_after_step _ _ _ _ _ _ Hi Hk) as [[-> ->] | [Hne Hk']];
      [reflexivity |].
    destruct (holds_mutex gk) eqn:Hhold; [| reflexivity].
    exfalso. apply Hne. exact (Hone k i gk g Hk' Hi Hhold Hh).
Qed.

(** The panic is the last event of every schedule it occurs in. *)
Lemma exec_panic_last (sched : list (nat * fate)) (s : system) (i : nat) :
  exclusive s ->
  (i, BackendPanicked) ∈ fst (exec sched s) ->
  abandoned (snd (exec sched s)) /\
  exists evs, fst (exec sched s) = evs ++ [(i, BackendPanicked)].
Proof.
  revert s. induction sched as [| [j f] sched IH]; intros s Hs Hin.
  - cbn in Hin. apply elem_of_nil in Hin. contradiction.
  - cbn [exec] in *.
    pose proof (system_step_exclusive j f s Hs) as Hs'.
    destruct (system_step j f s) as [o s'] eqn:Hstep. cbn [snd] in Hs'.
    specialize (IH s' Hs').
    destruct (exec sched s') as [evs s''] eqn:Hexec. cbn [fst snd] in *.
    destruct o as [[k e] |]; cbn [option_cons] in *.
    + apply elem_of_cons in Hin as [Heq | Hin].
      * injection Heq as <- <-.
        pose proof (panic_abandons _ _ _ _ _ Hs Hstep) as Hab.
        rewrite (abandoned_exec sched s' Hab) in Hexec.
        injection Hexec as <- <-.
        split; [exact Hab | exists []; reflexivity].
      * destruct (IH Hin) as [Hab [evs' ->]].
        split; [exact Hab | exists ((k, e) :: evs'); reflexivity].
    + exact (IH Hin).
Qed.

(** The two readings of a method agree: what [run] returns is what a
    goroutine alone on the cache reaches, step by step. *)
Lemma run_exec_agree {R : Type} (p : prog R) (c c' : CredCache) (r : R) :
  run p c = Returns r c' ->
  exists n,
    snd (exec (repeat (0%nat, Normal) n)
              {| cache := c; goroutines := [Running p] |})
    = {| cache := c'; goroutines := [Running (Return r)] |}.
Proof.
  revert c. induction p as [r0 | k IH | k IH | A body k IH]; intros c Hrun;
    cbn [run] in Hrun.
  - injection Hrun as -> ->. exists 0%nat. reflexivity.
  - destruct (lock c) eqn:Hl; [discriminate |].
    destruct (IH _ Hrun) as [n Hn]. exists (S n).
    cbn [repeat exec]. unfold system_step. cbn. rewrite Hl.
    cbn in Hn |- *.
    destruct (exec (repeat (0%nat, Normal) n) _) as [evs s'].
    exact Hn.
  - destruct (lock c) eqn:Hl; [| discriminate].
    destruct (IH _ Hrun) as [n Hn]. exists (S n).
    cbn [repeat exec]. unfold system_step. cbn. rewrite Hl.
    cbn in Hn |- *.
    destruct (exec (repeat (0%nat, Normal) n) _) as [evs s'].
    exact Hn.
  - destruct (IH _ _ Hrun) as [n Hn]. exists (S n).
    cbn [repeat exec]. unfold system_step. cbn.
    cbn in Hn |- *.
    destruct (exec (repeat (0%nat, Normal) n) _) as [evs s'].
    exact Hn.
Qed.

(** Each public method, alone on a free cache: it takes the mutex, runs
    the internal method, gives the mutex back and returns; if the internal
    method panics the goroutine is gone and the mutex stays as it was,
    locked. *)
Lemma public_call_protocol (g : goroutine) (c : CredCache) :
  public_call g -> lock c = false ->
  exists g1 g2 g3,
    (forall f, goroutine_step f c g = Some (Acquired, set_lock true c, g1)) /\
    in_backend g1 = true /\
    goroutine_step Normal (set_lock true c) g1
      = Some (BackendReturned, set_lock true c, g2) /\
    (forall f, goroutine_step f (set_lock true c) g2 = Some (Released, c, g3)) /\
    (forall f c', goroutine_step f c' g3 = None) /\
    goroutine_step Panics (set_lock true c) g1
      = Some (BackendPanicked, set_lock true c, Panicked) /\
    lock (set_lock true c) = true /\
    (forall f c', goroutine_step f c' Panicked = None).
Proof.
  intros Hg Hfree.
  destruct Hg as [| | T token | T]; cbn; rewrite Hfree;
    do 3 eexists;
    (split; [intros f; reflexivity |]);
    (split; [reflexivity |]);
    (split; [reflexivity |]); cbn;
    rewrite (unlock_after_lock c Hfree);
    (split; [intros f; reflexivity |]);
    (split; [intros f c'; reflexivity |]);
    (split; [reflexivity |]);
    (split; [reflexivity |]); intros f c'; reflexivity.
Qed.

(** C9: every public method takes the mutex before its internal method
    and gives it back only when that method returns, nothing being run
    when it panics; so, whatever the schedule, at most one goroutine is
    inside an internal method, and once an internal method panicked the
    mutex stays locked and no goroutine moves any more: the panic is the
    last event of the cache. *)
Theorem CredCache_lock_discipline (s0 : system) (sched : list (nat * fate)) :
  initial s0 ->
  let evs := fst (exec sched s0) in
  let s := snd (exec sched s0) in
  (forall g c, g ∈ goroutines s0 -> lock c = false ->
     exists g1 g2 g3,
       (forall f, goroutine_step f c g = Some (Acquired, set_lock true c, g1)) /\
       in_backend g1 = true /\
       goroutine_step Normal (set_lock true c) g1
         = Some (BackendReturned, set_lock true c, g2) /\
       (forall f,
          goroutine_step f (set_lock true c) g2 = Some (Released, c, g3)) /\
       (forall f c', goroutine_step f c' g3 = None) /\
       goroutine_step Panics (set_lock true c) g1
         = Some (BackendPanicked, set_lock true c, Panicked) /\
       lock (set_lock true c) = true /\
       (forall f c', goroutine_step f c' Panicked = None)) /\
  (forall i j gi gj,
     goroutines s !! i = Some gi -> goroutines s !! j = Some gj ->
     in_backend gi = true -> in_backend gj = true -> i = j) /\
  (forall i, (i, BackendPanicked) ∈ evs ->
     lock (cache s) = true /\
     (exists before, evs = before ++ [(i, BackendPanicked)]) /\
     (forall j g, goroutines s !! j = Some g -> in_backend g = false) /\
     (forall more, exec more s = ([], s))).
Proof.
  intros Hinit evs s.
  pose proof (initial_exclusive s0 Hinit) as Hs0.
  pose proof (exec_exclusive sched s0 Hs0) as Hs. fold s in Hs.
  split; [| split].
  - intros g c Hg Hfree. apply public_call_protocol; [| exact Hfree].
    destruct Hinit as [_ Hcalls].
    apply list_elem_of_lookup in Hg as [i Hi].
    exact (Forall_lookup_1 _ _ _ _ Hcalls Hi).
  - intros i j gi gj Hi Hj Hbi Hbj.
    destruct Hs as (_ & _ & Hone).
    apply (Hone i j gi gj Hi Hj); apply in_backend_holds_mutex; assumption.
  - intros i Hin.
    destruct (exec_panic_last sched s0 i Hs0 Hin) as [Hab Hlast].
    fold s in Hab. fold evs in Hlast.
    pose proof Hab as (_ & Hlocked & Hnone).
    split; [exact Hlocked |]. split; [exact Hlast |]. split.
    + intros j g Hj. destruct (in_backend g) eqn:Hb; [| reflexivity].
      pose proof (in_backend_holds_mutex g Hb).
      pose proof (Hnone j g Hj). congruence.
    + intros more. exact (abandoned_exec more s Hab).
Qed.

Lemma CredCache_lock_discipline_witness :
  initial sample_system /\
  fst (exec sample_schedule sample_system)
    = [(0%nat, Acquired); (0%nat, BackendPanicked)] /\
  lock (cache (snd (exec sample_schedule sample_system))) = true /\
  at_lock (nth 1 (goroutines (snd (exec sample_schedule sample_system)))
             Panicked) = true.
Proof.
  assert (Hinit : initial sample_system).
  { split; [reflexivity |]. repeat constructor. }
  split; [exact Hinit |]. split; [reflexivity |].
  destruct (CredCache_lock_discipline sample_system sample_schedule Hinit)
    as (_ & _ & Hpanic).
  destruct (Hpanic 0%nat) as (Hlocked & _).
  - cbn. repeat constructor.
  - split; [exact Hlocked | reflexivity].
Defined.

(** * Further properties *)

(** ** Ticks and nanoseconds *)

Lemma quot64_100 (n : Z) : int64_range n -> quot64 n 100 = n ÷ 100.
Proof.
  unfold int64_range, quot64. intros Hn. apply wrap_int64_id.
  unfold int64_range.
  pose proof (Z.quot_rem' n 100).
  pose proof (Z.rem_bound_pos_pos n 100).
  pose proof (Z.rem_bound_pos_neg n 100). lia.
Qed.

Lemma UnixNanoToWindowsTicks_exact (n : Z) :
  int64_range n ->
  UnixNanoToWindowsTicks n = n ÷ 100 + TICKS_FROM_WINDOWS_EPOCH_TO_UNIX_EPOCH.
Proof.
  intros Hn. unfold UnixNanoToWindowsTicks, add64.
  rewrite (quot64_100 n Hn).
  destruct (NsecToFiletime_fields n Hn) as (Ht & _).
  apply wrap_int64_id. unfold int64_range. lia.
Qed.

Lemma WindowsTicksToUnixNano_wrapped (t : Z) :
  WindowsTicksToUnixNano t
  = wrap_int64 ((t - TICKS_FROM_WINDOWS_EPOCH_TO_UNIX_EPOCH) * 100).
Proof.
  unfold WindowsTicksToUnixNano, sub64, mul64.
  destruct (wrap_int64_decomp (t - TICKS_FROM_WINDOWS_EPOCH_TO_UNIX_EPOCH))
    as [k ->].
  symmetry. rewrite <- (wrap_int64_add_mul _ (k * 100)). f_equal. ring.
Qed.

Lemma NsecToFiletime_ticks_value (n : Z) :
  int64_range n ->
  Filetime_wf (NsecToFiletime n) /\
  Filetime_ticks (NsecToFiletime n) = UnixNanoToWindowsTicks n /\
  Filetime_ticks (NsecToFiletime n)
  = n ÷ 100 + TICKS_FROM_WINDOWS_EPOCH_TO_UNIX_EPOCH.
Proof.
  intros Hn. rewrite (UnixNanoToWindowsTicks_exact n Hn).
  destruct (NsecToFiletime_fields n Hn) as (Ht & Hlo & Hhi).
  set (t := n ÷ 100 + TICKS_FROM_WINDOWS_EPOCH_TO_UNIX_EPOCH) in *.
  destruct (halves_join t) as [Hr Hjoin]; [lia |].
  assert (Hwf : Filetime_wf (NsecToFiletime n)).
  { unfold Filetime_wf. rewrite Hlo, Hhi. split; [| exact Hr].
    unfold uint32_range. apply Z.mod_pos_bound. lia. }
  split; [exact Hwf |].
  assert (Hticks : Filetime_ticks (NsecToFiletime n) = t).
  { unfold Filetime_ticks. rewrite lor_halves by apply Hwf.
    rewrite Hlo, Hhi. exact Hjoin. }
  split; exact Hticks.
Qed.

(** The two halves [NsecToFiletime] returns fit 32 bits each and hold the
    tick count [UnixNanoToWindowsTicks] returns. *)
Theorem NsecToFiletime_ticks (n : Z) :
  int64_range n ->
  Filetime_wf (NsecToFiletime n) /\
  Filetime_ticks (NsecToFiletime n) = UnixNanoToWindowsTicks n /\
  Filetime_ticks (NsecToFiletime n)
  = n ÷ 100 + TICKS_FROM_WINDOWS_EPOCH_TO_UNIX_EPOCH.
Proof. apply NsecToFiletime_ticks_value. Qed.

Lemma NsecToFiletime_ticks_witness :
  int64_range 1700000000123456789 /\
  Filetime_ticks (NsecToFiletime 1700000000123456789) = 133444736001234567.
Proof.
  assert (H : int64_range 1700000000123456789) by (unfold int64_range; lia).
  split; [exact H |].
  destruct (NsecToFiletime_ticks _ H) as (_ & _ & ->). reflexivity.
Defined.

Lemma Nanoseconds_of_ticks (ft : Filetime) :
  Filetime_wf ft ->
  Nanoseconds ft = WindowsTicksToUnixNano (to_int64 (Filetime_ticks ft)).
Proof.
  intros [Hlo Hhi]. unfold Filetime_ticks, to_int64.
  rewrite (lor_halves _ _ Hlo), Nanoseconds_wrapped,
    WindowsTicksToUnixNano_wrapped.
  destruct (wrap_int64_decomp (HighDateTime ft * 2 ^ 32 + LowDateTime ft))
    as [k ->].
  rewrite <- (wrap_int64_add_mul _ (k * 100)). f_equal. ring.
Qed.

(** [Nanoseconds] of a [Filetime] is [WindowsTicksToUnixNano] of its tick
    value taken as an [int64]. *)
Theorem Nanoseconds_WindowsTicksToUnixNano (ft : Filetime) :
  Filetime_wf ft ->
  Nanoseconds ft = WindowsTicksToUnixNano (to_int64 (Filetime_ticks ft)).
Proof. apply Nanoseconds_of_ticks. Qed.

Lemma Nanoseconds_WindowsTicksToUnixNano_witness :
  let ft := {| LowDateTime := 5; HighDateTime := 4294967295 |} in
  Filetime_wf ft /\
  Nanoseconds ft = WindowsTicksToUnixNano (-4294967291).
Proof.
  intros ft.
  assert (Hwf : Filetime_wf ft)
    by (unfold Filetime_wf, uint32_range; cbn; lia).
  split; [exact Hwf |].
  rewrite (Nanoseconds_WindowsTicksToUnixNano ft Hwf). reflexivity.
Defined.

(** Nanoseconds to ticks and back, on the scalars: [n] cut toward zero to
    a multiple of 100, less than 100 ns away from [n]. *)
Theorem ticks_roundtrip_of_nanoseconds (n : Z) :
  int64_range n ->
  WindowsTicksToUnixNano (UnixNanoToWindowsTicks n) = 100 * (n ÷ 100) /\
  Z.abs (n - WindowsTicksToUnixNano (UnixNanoToWindowsTicks n)) < 100.
Proof.
  intros Hn.
  rewrite (UnixNanoToWindowsTicks_exact n Hn), WindowsTicksToUnixNano_wrapped.
  replace (n ÷ 100 + TICKS_FROM_WINDOWS_EPOCH_TO_UNIX_EPOCH
           - TICKS_FROM_WINDOWS_EPOCH_TO_UNIX_EPOCH) with (n ÷ 100) by lia.
  pose proof (Z.quot_rem' n 100).
  pose proof (Z.rem_bound_pos_pos n 100).
  pose proof (Z.rem_bound_pos_neg n 100).
  unfold int64_range in Hn.
  rewrite wrap_int64_id by (unfold int64_range; lia).
  split; lia.
Qed.

Lemma ticks_roundtrip_of_nanoseconds_witness :
  int64_range (-1999) /\
  WindowsTicksToUnixNano (UnixNanoToWindowsTicks (-1999)) = -1900.
Proof.
  assert (H : int64_range (-1999)) by (unfold int64_range; lia).
  split; [exact H |].
  destruct (ticks_roundtrip_of_nanoseconds _ H) as [-> _]. reflexivity.
Defined.

Lemma WindowsTicksToUnixNano_exact (t : Z) :
  FIRST_EXACT_TICK <= t <= LAST_EXACT_TICK ->
  WindowsTicksToUnixNano t
    = (t - TICKS_FROM_WINDOWS_EPOCH_TO_UNIX_EPOCH) * 100 /\
  UnixNanoToWindowsTicks (WindowsTicksToUnixNano t) = t.
Proof.
  unfold FIRST_EXACT_TICK, LAST_EXACT_TICK. intros Ht.
  assert (Hns : int64_range
                  ((t - TICKS_FROM_WINDOWS_EPOCH_TO_UNIX_EPOCH) * 100))
    by (unfold int64_range, TICKS_FROM_WINDOWS_EPOCH_TO_UNIX_EPOCH; lia).
  rewrite WindowsTicksToUnixNano_wrapped, (wrap_int64_id _ Hns).
  split; [reflexivity |].
  rewrite (UnixNanoToWindowsTicks_exact _ Hns).
  rewrite Z.quot_mul by lia. lia.
Qed.

(** Ticks to nanoseconds and back: every tick count between 1677 and
    2262, the dates an [int64] of nanoseconds reaches, comes back as it
    was. *)
Theorem nanoseconds_roundtrip_of_ticks (t : Z) :
  FIRST_EXACT_TICK <= t <= LAST_EXACT_TICK ->
  WindowsTicksToUnixNano t
    = (t - TICKS_FROM_WINDOWS_EPOCH_TO_UNIX_EPOCH) * 100 /\
  UnixNanoToWindowsTicks (WindowsTicksToUnixNano t) = t.
Proof. apply WindowsTicksToUnixNano_exact. Qed.

Lemma nanoseconds_roundtrip_of_ticks_witness :
  FIRST_EXACT_TICK <= 24211015631452242 <= LAST_EXACT_TICK /\
  UnixNanoToWindowsTicks (WindowsTicksToUnixNano 24211015631452242)
  = 24211015631452242.
Proof.
  assert (H : FIRST_EXACT_TICK <= 24211015631452242 <= LAST_EXACT_TICK)
    by (unfold FIRST_EXACT_TICK, LAST_EXACT_TICK; lia).
  split; [exact H |]. apply (nanoseconds_roundtrip_of_ticks _ H).
Defined.

(** Where its distance to 1970 fits an [int64], [Nanoseconds] does not
    wrap. *)
Lemma Nanoseconds_exact (ft : Filetime) :
  Filetime_wf ft ->
  FIRST_EXACT_TICK <= Filetime_ticks ft <= LAST_EXACT_TICK ->
  Nanoseconds ft
  = (Filetime_ticks ft - TICKS_FROM_WINDOWS_EPOCH_TO_UNIX_EPOCH) * 100.
Proof.
  intros Hwf Hticks.
  rewrite (Nanoseconds_of_ticks ft Hwf). unfold to_int64.
  rewrite wrap_int64_id
    by (unfold int64_range, FIRST_EXACT_TICK, LAST_EXACT_TICK in *; lia).
  apply (WindowsTicksToUnixNano_exact _ Hticks).
Qed.

(** A [Filetime] between 1677 and 2262 comes back from [Nanoseconds] and
    [NsecToFiletime] with both halves as they were. *)
Theorem Filetime_roundtrip (ft : Filetime) :
  Filetime_wf ft ->
  FIRST_EXACT_TICK <= Filetime_ticks ft <= LAST_EXACT_TICK ->
  NsecToFiletime (Nanoseconds ft) = ft.
Proof.
  intros Hwf Hticks. rewrite (Nanoseconds_exact ft Hwf Hticks).
  destruct Hwf as [Hlo Hhi].
  unfold Filetime_ticks in *. rewrite (lor_halves _ _ Hlo) in *.
  set (t := HighDateTime ft * 2 ^ 32 + LowDateTime ft) in *.
  assert (Hns : int64_range
                  ((t - TICKS_FROM_WINDOWS_EPOCH_TO_UNIX_EPOCH) * 100)).
  { unfold int64_range, FIRST_EXACT_TICK, LAST_EXACT_TICK,
      TICKS_FROM_WINDOWS_EPOCH_TO_UNIX_EPOCH in *. lia. }
  destruct (NsecToFiletime_fields _ Hns) as (_ & Hlo' & Hhi').
  rewrite Z.quot_mul in Hlo', Hhi' by lia.
  replace (t - TICKS_FROM_WINDOWS_EPOCH_TO_UNIX_EPOCH
           + TICKS_FROM_WINDOWS_EPOCH_TO_UNIX_EPOCH) with t in Hlo', Hhi'
    by lia.
  unfold uint32_range in Hlo, Hhi.
  assert (Hmod : t mod 2 ^ 32 = LowDateTime ft).
  { subst t. rewrite Z.add_comm, Z.mod_add by lia.
    apply Z.mod_small. exact Hlo. }
  assert (Hdiv : t / 2 ^ 32 = HighDateTime ft).
  { subst t. rewrite Z.add_comm, Z.div_add by lia.
    rewrite Z.div_small by exact Hlo. lia. }
  destruct (NsecToFiletime
              ((t - TICKS_FROM_WINDOWS_EPOCH_TO_UNIX_EPOCH) * 100))
    as [lo' hi'].
  destruct ft as [lo hi]. cbn in *. congruence.
Qed.

Lemma Filetime_roundtrip_witness :
  let ft := {| LowDateTime := 3577642998; HighDateTime := 27111902 |} in
  Filetime_wf ft /\
  FIRST_EXACT_TICK <= Filetime_ticks ft <= LAST_EXACT_TICK /\
  NsecToFiletime (Nanoseconds ft) = ft.
Proof.
  intros ft.
  assert (Hwf : Filetime_wf ft)
    by (unfold Filetime_wf, uint32_range; cbn; lia).
  assert (Hticks : FIRST_EXACT_TICK <= Filetime_ticks ft <= LAST_EXACT_TICK)
    by (vm_compute; split; discriminate).
  split; [exact Hwf |]. split; [exact Hticks |].
  exact (Filetime_roundtrip ft Hwf Hticks).
Defined.

(** Later instants get later tick values: [NsecToFiletime] keeps the
    order of timestamps. *)
Theorem NsecToFiletime_monotone (n m : Z) :
  int64_range n -> int64_range m -> n <= m ->
  Filetime_ticks (NsecToFiletime n) <= Filetime_ticks (NsecToFiletime m).
Proof.
  intros Hn Hm Hle.
  destruct (NsecToFiletime_ticks_value n Hn) as (_ & _ & ->).
  destruct (NsecToFiletime_ticks_value m Hm) as (_ & _ & ->).
  pose proof (Z.quot_le_mono n m 100). lia.
Qed.

Lemma NsecToFiletime_monotone_witness :
  Filetime_ticks (NsecToFiletime (-101))
  <= Filetime_ticks (NsecToFiletime 99).
Proof.
  apply NsecToFiletime_monotone; unfold int64_range; lia.
Defined.

Lemma TimespecToFiletime_value (ts : Timespec) :
  int64_range (Sec ts * 1000000000 + Nsec ts) ->
  Filetime_ticks (TimespecToFiletime ts)
  = (Sec ts * 1000000000 + Nsec ts) ÷ 100
    + TICKS_FROM_WINDOWS_EPOCH_TO_UNIX_EPOCH /\
  Nanoseconds (TimespecToFiletime ts)
  = 100 * ((Sec ts * 1000000000 + Nsec ts) ÷ 100) /\
  (0 <= Sec ts -> 0 <= Nsec ts < 1000000000 ->
   Filetime_ticks (TimespecToFiletime ts)
   = Sec ts * 10000000 + Nsec ts / 100
     + TICKS_FROM_WINDOWS_EPOCH_TO_UNIX_EPOCH).
Proof.
  intros Hr.
  assert (Hsum : add64 (mul64 (to_int64 (Sec ts)) 1000000000)
                       (to_int64 (Nsec ts))
                 = Sec ts * 1000000000 + Nsec ts).
  { unfold add64, mul64, to_int64.
    destruct (wrap_int64_decomp (Sec ts)) as [k1 ->].
    destruct (wrap_int64_decomp (Nsec ts)) as [k2 ->].
    destruct (wrap_int64_decomp ((Sec ts + k1 * 2 ^ 64) * 1000000000))
      as [k3 ->].
    transitivity (wrap_int64 (Sec ts * 1000000000 + Nsec ts));
      [| exact (wrap_int64_id _ Hr)].
    rewrite <- (wrap_int64_add_mul (Sec ts * 1000000000 + Nsec ts)
                  (k1 * 1000000000 + k2 + k3)).
    f_equal. ring. }
  unfold TimespecToFiletime. rewrite Hsum.
  destruct (NsecToFiletime_ticks_value _ Hr) as (_ & _ & Hticks).
  split; [exact Hticks |].
  split; [exact (Nanoseconds_NsecToFiletime _ Hr) |].
  intros Hsec Hnsec. rewrite Hticks. f_equal.
  rewrite Z.quot_div_nonneg by lia.
  replace (Sec ts * 1000000000 + Nsec ts)
    with (Nsec ts + (Sec ts * 10000000) * 100) by lia.
  rewrite Z.div_add by lia. lia.
Qed.

(** A [Timespec] whose nanoseconds since 1970 fit an [int64] becomes the
    [Filetime] of that instant, cut toward zero to a tick; for a time
    after 1970 with its nanoseconds below a second, the tick value is ten
    million per second plus one per hundred nanoseconds. *)
Theorem TimespecToFiletime_ticks (ts : Timespec) :
  int64_range (Sec ts * 1000000000 + Nsec ts) ->
  Filetime_ticks (TimespecToFiletime ts)
  = (Sec ts * 1000000000 + Nsec ts) ÷ 100
    + TICKS_FROM_WINDOWS_EPOCH_TO_UNIX_EPOCH /\
  Nanoseconds (TimespecToFiletime ts)
  = 100 * ((Sec ts * 1000000000 + Nsec ts) ÷ 100) /\
  (0 <= Sec ts -> 0 <= Nsec ts < 1000000000 ->
   Filetime_ticks (TimespecToFiletime ts)
   = Sec ts * 10000000 + Nsec ts / 100
     + TICKS_FROM_WINDOWS_EPOCH_TO_UNIX_EPOCH).
Proof. apply TimespecToFiletime_value. Qed.

Lemma TimespecToFiletime_ticks_witness :
  let ts := {| Sec := 1600000000; Nsec := 987654321 |} in
  int64_range (Sec ts * 1000000000 + Nsec ts) /\
  Filetime_ticks (TimespecToFiletime ts) = 132444736009876543.
Proof.
  intros ts.
  assert (H : int64_range (Sec ts * 1000000000 + Nsec ts))
    by (unfold int64_range; cbn; lia).
  split; [exact H |].
  destruct (TimespecToFiletime_ticks ts H) as (-> & _). reflexivity.
Defined.

(** ** The rest of the file information *)


(** A query that returns an error returns the zero record with it, and
    the error names the path and the cause [stat] gave. *)
Theorem GetFileInformation_failure (unix_Stat : string -> StatOutcome)
    (path : string) (isNFSCopy : bool) (e : error) :
  snd (GetFileInformation unix_Stat path isNFSCopy) = Some e ->
  fst (GetFileInformation unix_Stat path isNFSCopy)
    = ByHandleFileInformation_zero /\
  exists cause,
    unix_Stat path = StatFails cause /\
    e = ("stat(" ++ path ++ ") failed: " ++ cause)%string.
Proof.
  unfold GetFileInformation.
  destruct (unix_Stat path) as [cause | st]; cbn [fst snd].
  - intros [= <-]. split; [reflexivity |]. exists cause. split; reflexivity.
  - discriminate.
Qed.

Lemma GetFileInformation_failure_witness :
  snd (GetFileInformation sample_Stat "/nope" false)
    = Some "stat(/nope) failed: no such file or directory"%string /\
  fst (GetFileInformation sample_Stat "/nope" false)
    = ByHandleFileInformation_zero.
Proof.
  assert (H : snd (GetFileInformation sample_Stat "/nope" false)
              = Some "stat(/nope) failed: no such file or directory"%string)
    by reflexivity.
  split; [exact H |].
  apply (GetFileInformation_failure _ _ _ _ H).
Defined.


(** The two halves of the file index put the inode number back
    together. *)
Theorem GetFileInformation_index_halves (unix_Stat : string -> StatOutcome)
    (path : string) (isNFSCopy : bool) (st : Stat_t) :
  unix_Stat path = StatOk st ->
  0 <= Ino st < 2 ^ 64 ->
  let info := fst (GetFileInformation unix_Stat path isNFSCopy) in
  FileIndexHigh info * 2 ^ 32 + FileIndexLow info = Ino st /\
  Z.lor (Z.shiftl (FileIndexHigh info) 32) (FileIndexLow info) = Ino st.
Proof.
  intros Hst Hino. cbv zeta. unfold GetFileInformation. rewrite Hst.
  cbn [fst FileIndexHigh FileIndexLow]. unfold shru64, andu64.
  rewrite land_low32, shiftr_32.
  unfold to_uint64. rewrite (Z.mod_small (Ino st)) by exact Hino.
  destruct (halves_join _ Hino) as [Hhi Hjoin].
  rewrite (to_uint32_id _ Hhi).
  assert (Hlo : uint32_range (Ino st mod 2 ^ 32))
    by (apply Z.mod_pos_bound; lia).
  rewrite (to_uint32_id _ Hlo).
  split; [exact Hjoin |]. rewrite (lor_halves _ _ Hlo). exact Hjoin.
Qed.

Lemma GetFileInformation_index_halves_witness :
  sample_Stat "/data/big.bin" = StatOk sample_file /\
  0 <= Ino sample_file < 2 ^ 64 /\
  FileIndexHigh (fst (GetFileInformation sample_Stat "/data/big.bin" false))
    * 2 ^ 32
  + FileIndexLow (fst (GetFileInformation sample_Stat "/data/big.bin" false))
  = 2 ^ 33 + 7.
Proof.
  assert (Hst : sample_Stat "/data/big.bin" = StatOk sample_file)
    by reflexivity.
  assert (Hino : 0 <= Ino sample_file < 2 ^ 64) by (cbn; lia).
  split; [exact Hst |]. split; [exact Hino |].
  apply (GetFileInformation_index_halves _ _ false _ Hst Hino).
Defined.

(** The link count is kept when it fits 32 bits; a larger one is cut to
    its low 32 bits. *)
Theorem GetFileInformation_links (unix_Stat : string -> StatOutcome)
    (path : string) (isNFSCopy : bool) (st : Stat_t) :
  unix_Stat path = StatOk st ->
  let info := fst (GetFileInformation unix_Stat path isNFSCopy) in
  NumberOfLinks info = Nlink st mod 2 ^ 32 /\
  (0 <= Nlink st < 2 ^ 32 -> NumberOfLinks info = Nlink st) /\
  (2 ^ 32 <= Nlink st -> NumberOfLinks info < Nlink st).
Proof.
  intros Hst. cbv zeta. unfold GetFileInformation. rewrite Hst.
  cbn [fst NumberOfLinks]. unfold to_uint32.
  split; [reflexivity |]. split.
  - intros Hfit. apply Z.mod_small. exact Hfit.
  - intros Hbig. pose proof (Z.mod_pos_bound (Nlink st) (2 ^ 32)). lia.
Qed.

Lemma GetFileInformation_links_witness :
  sample_Stat "/data" = StatOk sample_dir /\
  NumberOfLinks (fst (GetFileInformation sample_Stat "/data" true)) = 3.
Proof.
  assert (Hst : sample_Stat "/data" = StatOk sample_dir) by reflexivity.
  split; [exact Hst |].
  destruct (GetFileInformation_links _ _ true _ Hst) as (_ & Hfit & _).
  apply Hfit. cbn. lia.
Defined.

(** The creation time is the last write time; read back with
    [Nanoseconds], the write and access times are the modification and
    access times of [stat], cut toward zero to 100 ns. *)
Theorem GetFileInformation_times (unix_Stat : string -> StatOutcome)
    (path : string) (isNFSCopy : bool) (st : Stat_t) :
  unix_Stat path = StatOk st ->
  int64_range (Sec (Mtim st) * 1000000000 + Nsec (Mtim st)) ->
  int64_range (Sec (Atim st) * 1000000000 + Nsec (Atim st)) ->
  let info := fst (GetFileInformation unix_Stat path isNFSCopy) in
  CreationTime info = LastWriteTime info /\
  Nanoseconds (LastWriteTime info)
    = 100 * ((Sec (Mtim st) * 1000000000 + Nsec (Mtim st)) ÷ 100) /\
  Nanoseconds (LastAccessTime info)
    = 100 * ((Sec (Atim st) * 1000000000 + Nsec (Atim st)) ÷ 100).
Proof.
  intros Hst Hm Ha. cbv zeta. unfold GetFileInformation. rewrite Hst.
  cbn [fst CreationTime LastWriteTime LastAccessTime].
  split; [reflexivity |]. split.
  - apply (TimespecToFiletime_value
             {| Sec := Sec (Mtim st); Nsec := Nsec (Mtim st) |} Hm).
  - apply (TimespecToFiletime_value
             {| Sec := Sec (Atim st); Nsec := Nsec (Atim st) |} Ha).
Qed.

Lemma GetFileInformation_times_witness :
  sample_Stat "/data/big.bin" = StatOk sample_file /\
  Nanoseconds
    (LastWriteTime (fst (GetFileInformation sample_Stat "/data/big.bin" false)))
  = 1600000000987654300.
Proof.
  assert (Hst : sample_Stat "/data/big.bin" = StatOk sample_file)
    by reflexivity.
  split; [exact Hst |].
  destruct (GetFileInformation_times _ _ false _ Hst) as (_ & -> & _);
    [unfold int64_range; cbn; lia .. | reflexivity].
Defined.

(** ** The other ways of creating a file *)

Section SizedFileOutcomes.
Context {World File Tracker : Type} `{FS : FileSystem World File Tracker}.

Implicit Types (path : string) (fileSize : Z) (t : Tracker) (w : World).

(** A failed open returns its error with no handle; the file is neither
    resized nor closed. *)
Theorem CreateFile_open_error
    path fileSize writeThrough t forceIfReadOnly w w1 w2 f e :
  CreateParentDirectoryIfNotExist path t w = (None, w1) ->
  os_OpenFile path (open_flags writeThrough) DEFAULT_FILE_PERM w1
    = ((f, Some e), w2) ->
  run_IO (CreateFileOfSizeWithWriteThroughOption path fileSize
            writeThrough t forceIfReadOnly) w
  = ((nil_File, Some e),
     (w2, [CallCreateParentDirectory path t;
           CallOpenFile path (open_flags writeThrough) DEFAULT_FILE_PERM])).
Proof.
  intros Hdir Hopen.
  rewrite (CreateFile_opened _ fileSize _ _ forceIfReadOnly _ _ _ _ _
             Hdir Hopen).
  reflexivity.
Qed.

(** When every step succeeds and the size is not 0, the handle that was
    opened is returned after one resize to [fileSize], and is not
    closed. *)
Theorem CreateFile_sized
    path fileSize writeThrough t forceIfReadOnly w w1 w2 w3 f :
  fileSize <> 0 ->
  CreateParentDirectoryIfNotExist path t w = (None, w1) ->
  os_OpenFile path (open_flags writeThrough) DEFAULT_FILE_PERM w1
    = ((f, None), w2) ->
  File_Truncate f fileSize w2 = (None, w3) ->
  run_IO (CreateFileOfSizeWithWriteThroughOption path fileSize
            writeThrough t forceIfReadOnly) w
  = ((f, None),
     (w3, [CallCreateParentDirectory path t;
           CallOpenFile path (open_flags writeThrough) DEFAULT_FILE_PERM;
           CallTruncate f fileSize])).
Proof.
  intros Hsize Hdir Hopen Htrunc.
  rewrite (CreateFile_opened _ fileSize _ _ forceIfReadOnly _ _ _ _ _
             Hdir Hopen).
  apply Z.eqb_neq in Hsize. rewrite Hsize.
  unfold bind, truncate, call, ret. cbn [fst snd].
  rewrite Htrunc. reflexivity.
Qed.

(** Every run is one of five: the calls it made, in order, and what it
    returned. *)
Lemma CreateFile_runs path fileSize writeThrough t forceIfReadOnly w :
  let result :=
    run_IO (CreateFileOfSizeWithWriteThroughOption path fileSize
              writeThrough t forceIfReadOnly) w in
  let mkdir := CallCreateParentDirectory path t in
  let open := CallOpenFile path (open_flags writeThrough) DEFAULT_FILE_PERM in
  (exists e, fst result = (nil_File, Some e) /\ snd (snd result) = [mkdir]) \/
  (exists e, fst result = (nil_File, Some e) /\
             snd (snd result) = [mkdir; open]) \/
  (exists f, fileSize = 0 /\ fst result = (f, None) /\
             snd (snd result) = [mkdir; open]) \/
  (exists f e, fileSize <> 0 /\ fst result = (nil_File, Some e) /\
               snd (snd result)
               = [mkdir; open; CallTruncate f fileSize; CallClose f]) \/
  (exists f, fileSize <> 0 /\ fst result = (f, None) /\
             snd (snd result) = [mkdir; open; CallTruncate f fileSize]).
Proof.
  cbv zeta.
  destruct (CreateParentDirectoryIfNotExist path t w) as [[e |] w1] eqn:Hdir.
  - left. exists e.
    unfold run_IO, CreateFileOfSizeWithWriteThroughOption, bind,
      createParentDirectoryIfNotExist, call.
    cbn [fst snd]. rewrite Hdir. split; reflexivity.
  - destruct (os_OpenFile path (open_flags writeThrough) DEFAULT_FILE_PERM w1)
      as [[f [e |]] w2] eqn:Hopen;
      rewrite (CreateFile_opened _ fileSize _ _ forceIfReadOnly _ _ _ _ _
                 Hdir Hopen).
    + right. left. exists e. split; reflexivity.
    + destruct (Z.eqb_spec fileSize 0) as [Hzero | Hsize].
      * right. right. left. exists f. repeat split. exact Hzero.
      * unfold bind, truncate, close, call, ret. cbn [fst snd].
        destruct (File_Truncate f fileSize w2) as [[e |] w3]; cbn [fst snd].
        -- destruct (File_Close f w3) as [cerr w4].
           right. right. right. left. exists f, e. repeat split. exact Hsize.
        -- right. right. right. right. exists f. repeat split. exact Hsize.
Qed.

(** What no run does: it never closes a handle it returns, never resizes
    to 0 or to another size than asked, never starts with anything but
    the directory, and never makes more than four calls. *)
Theorem CreateFile_never path fileSize writeThrough t forceIfReadOnly w :
  let result :=
    run_IO (CreateFileOfSizeWithWriteThroughOption path fileSize
              writeThrough t forceIfReadOnly) w in
  let log := snd (snd result) in
  (forall f, CallClose f ∈ log ->
     fst (fst result) = nil_File /\ snd (fst result) <> None) /\
  (forall f size, CallTruncate f size ∈ log ->
     size = fileSize /\ fileSize <> 0) /\
  head log = Some (CallCreateParentDirectory path t) /\
  (length log <= 4)%nat.
Proof.
  cbv zeta.
  destruct (CreateFile_runs path fileSize writeThrough t forceIfReadOnly w)
    as [(e & Hres & Hlog) | [(e & Hres & Hlog) | [(f & Hz & Hres & Hlog)
       | [(f & e & Hnz & Hres & Hlog) | (f & Hnz & Hres & Hlog)]]]];
    rewrite Hres, Hlog; cbn [fst snd head length];
    (split; [| split; [| split; [reflexivity | lia]]]).
  all: try (intros f' Hin; exfalso;
            repeat (apply elem_of_cons in Hin as [Hin | Hin];
                    [discriminate |]);
            apply elem_of_nil in Hin; exact Hin).
  all: try (intros f' size Hin; exfalso;
            repeat (apply elem_of_cons in Hin as [Hin | Hin];
                    [discriminate |]);
            apply elem_of_nil in Hin; exact Hin).
  - intros f' _. split; [reflexivity | discriminate].
  - intros f' size Hin.
    repeat (apply elem_of_cons in Hin as [Hin | Hin];
            [first [discriminate | injection Hin as _ ->; auto] |]).
    apply elem_of_nil in Hin. contradiction.
  - intros f' size Hin.
    repeat (apply elem_of_cons in Hin as [Hin | Hin];
            [first [discriminate | injection Hin as _ ->; auto] |]).
    apply elem_of_nil in Hin. contradiction.
Qed.

(** The file is opened at most once, at the path asked, with the
    package's permission, for reading and writing, created and emptied;
    synchronous writes are asked for exactly when [writeThrough] is
    set. *)
Theorem CreateFile_open_flags
    path fileSize writeThrough t forceIfReadOnly w p flags perm :
  CallOpenFile p flags perm
    ∈ snd (snd (run_IO (CreateFileOfSizeWithWriteThroughOption path fileSize
                          writeThrough t forceIfReadOnly) w)) ->
  p = path /\ perm = DEFAULT_FILE_PERM /\
  Z.land flags O_RDWR = O_RDWR /\
  Z.land flags O_CREATE = O_CREATE /\
  Z.land flags O_TRUNC = O_TRUNC /\
  Z.land flags O_SYNC = (if writeThrough then O_SYNC else 0).
Proof.
  intros Hin.
  assert (Hcall : CallOpenFile (File := File) (Tracker := Tracker) p flags perm
                  = CallOpenFile path (open_flags writeThrough)
                      DEFAULT_FILE_PERM).
  { destruct (CreateFile_runs path fileSize writeThrough t forceIfReadOnly w)
      as [(e & _ & Hlog) | [(e & _ & Hlog) | [(f & _ & _ & Hlog)
         | [(f & e & _ & _ & Hlog) | (f & _ & _ & Hlog)]]]];
      rewrite Hlog in Hin;
      repeat (apply elem_of_cons in Hin as [Hin | Hin];
              [first [discriminate | exact Hin] |]);
      apply elem_of_nil in Hin; contradiction. }
  injection Hcall as -> -> ->.
  split; [reflexivity |]. split; [reflexivity |].
  destruct writeThrough; repeat split; reflexivity.
Qed.
End SizedFileOutcomes.

Lemma CreateFile_sized_witness :
  run_IO
    (CreateFileOfSizeWithWriteThroughOption (FS := sample_FS)
       "/tmp/out.bin" 4096 false tt false)
    5000
  = ((3%nat, None),
     (904,
      [CallCreateParentDirectory "/tmp/out.bin" tt;
       CallOpenFile "/tmp/out.bin" 0x602 420;
       CallTruncate 3%nat 4096])).
Proof.
  apply (CreateFile_sized (FS := sample_FS)
           "/tmp/out.bin" 4096 false tt false 5000 5000 5000 904 3%nat).
  - lia.
  - reflexivity.
  - reflexivity.
  - reflexivity.
Defined.

Lemma CreateFile_open_flags_witness :
  Z.land 0x682 O_SYNC = O_SYNC /\ Z.land 0x682 O_TRUNC = O_TRUNC.
Proof.
  destruct (CreateFile_open_flags (FS := sample_FS)
              "/tmp/out.bin" 4096 true tt false 100
              "/tmp/out.bin" 0x682 420)
    as (_ & _ & _ & _ & Htrunc & Hsync).
  - cbn. repeat constructor.
  - split; [exact Hsync | exact Htrunc].
Defined.

Lemma CreateFile_open_error_witness :
  run_IO
    (CreateFileOfSizeWithWriteThroughOption (FS := sample_FS_denied)
       "/locked/out.bin" 4096 true tt false)
    5000
  = ((0%nat, Some "permission denied"%string),
     (5000,
      [CallCreateParentDirectory "/locked/out.bin" tt;
       CallOpenFile "/locked/out.bin" 0x682 420])).
Proof.
  apply (CreateFile_open_error (FS := sample_FS_denied)
           "/locked/out.bin" 4096 true tt false 5000 5000 5000 0%nat).
  - reflexivity.
  - reflexivity.
Defined.

(** ** More on goroutines sharing the cache *)

Lemma exec_cons (i : nat) (f : fate) (sched : list (nat * fate)) (s : system) :
  exec ((i, f) :: sched) s
  = (option_cons (fst (system_step i f s))
       (fst (exec sched (snd (system_step i f s)))),
     snd (exec sched (snd (system_step i f s)))).
Proof.
  cbn [exec]. destruct (system_step i f s) as [o s']. cbn [fst snd].
  destruct (exec sched s') as [evs s'']. reflexivity.
Qed.

(** A step takes the first event off what the goroutine can go
    through. *)
Lemma goroutine_step_script (f : fate) (c c' : CredCache)
    (g g' : goroutine) (e : event) (rest : list event) :
  on_protocol g ->
  goroutine_step f c g = Some (e, c', g') ->
  rest ∈ script g' -> e :: rest ∈ script g.
Proof.
  intros Hg Hstep Hrest.
  destruct g as [R p |]; [| discriminate].
  destruct p as [r | k | k | A body k]; cbn in Hstep, Hg.
  - discriminate.
  - destruct (lock c); [discriminate |]. injection Hstep as <- <- <-.
    destruct Hg as [Hk | [[] | [[] | []]]].
    destruct k; cbn in Hk; try contradiction. cbn in Hrest |- *.
    apply elem_of_cons in Hrest as [-> | Hrest]; [left |].
    apply elem_of_cons in Hrest as [-> | Hrest]; [right; left |].
    apply elem_of_nil in Hrest. contradiction.
  - destruct (lock c); [| discriminate]. injection Hstep as <- <- <-.
    destruct Hg as [[] | [[] | [Hk | []]]].
    destruct k; cbn in Hk; try contradiction. cbn in Hrest |- *.
    apply elem_of_cons in Hrest as [-> | Hrest]; [left |].
    apply elem_of_nil in Hrest. contradiction.
  - destruct Hg as [[] | [Hk | [[] | []]]].
    destruct f; injection Hstep as <- <- <-.
    + specialize (Hk (body c)).
      destruct (k (body c)); cbn in Hk; try contradiction.
      cbn in Hrest |- *.
      apply elem_of_cons in Hrest as [-> | Hrest]; [left |].
      apply elem_of_nil in Hrest. contradiction.
    + cbn in Hrest |- *.
      apply elem_of_cons in Hrest as [-> | Hrest]; [right; left |].
      apply elem_of_nil in Hrest. contradiction.
Qed.

Lemma exec_script (sched : list (nat * fate)) (s : system) (i : nat) :
  Forall on_protocol (goroutines s) ->
  match goroutines s !! i with
  | Some g =>
      exists full,
        full ∈ script g /\ events_of i (fst (exec sched s)) `prefix_of` full
  | None => events_of i (fst (exec sched s)) = []
  end.
Proof.
  revert s. induction sched as [| [j f] sched IH]; intros s Hproto.
  - cbn. destruct (goroutines s !! i) as [g |]; [| reflexivity].
    destruct g as [R [] |]; cbn; eexists; (split; [left |]); apply prefix_nil.
  - rewrite exec_cons. cbn [fst].
    destruct (system_step_cases j f s)
      as [-> | (g & e & c' & g' & Hj & Hstep & ->)]; cbn [fst snd option_cons].
    + exact (IH s Hproto).
    + pose proof (Forall_lookup_1 _ _ _ _ Hproto Hj) as Hg.
      destruct (goroutine_step_protocol _ _ _ _ _ _ Hg Hstep) as [Hg' _].
      set (s' := {| cache := c'; goroutines := <[j := g']> (goroutines s) |}).
      assert (Hproto' : Forall on_protocol (goroutines s'))
        by (apply Forall_insert; assumption).
      specialize (IH s' Hproto'). cbn [events_of].
      destruct (Nat.eqb_spec j i) as [-> | Hne].
      * rewrite Hj. cbn [goroutines s'] in IH.
        rewrite list_lookup_insert_eq in IH
          by (eapply lookup_lt_Some; eauto).
        destruct IH as (rest & Hrest & Hpre).
        exists (e :: rest). split.
        -- exact (goroutine_step_script _ _ _ _ _ _ _ Hg Hstep Hrest).
        -- apply prefix_cons. exact Hpre.
      * cbn [goroutines s'] in IH.
        rewrite list_lookup_insert_ne in IH by exact Hne. exact IH.
Qed.

(** Under every schedule each caller takes the mutex once, before the
    internal method, and gives it back once, after the method returned;
    a caller whose internal method panicked does nothing more. *)
Theorem call_events_in_order (s0 : system) (sched : list (nat * fate))
    (i : nat) :
  initial s0 ->
  events_of i (fst (exec sched s0))
    `prefix_of` [Acquired; BackendReturned; Released] \/
  events_of i (fst (exec sched s0)) `prefix_of` [Acquired; BackendPanicked].
Proof.
  intros Hinit.
  destruct (initial_exclusive s0 Hinit) as (Hproto & _).
  pose proof (exec_script sched s0 i Hproto) as Hscript.
  destruct (goroutines s0 !! i) as [g |] eqn:Hi.
  - destruct Hscript as (full & Hfull & Hpre).
    destruct Hinit as [_ Hcalls].
    destruct (public_call_locks_first g (Forall_lookup_1 _ _ _ _ Hcalls Hi))
      as (R & p & -> & Hp).
    destruct p; cbn in Hp; try contradiction. cbn in Hfull.
    apply elem_of_cons in Hfull as [-> | Hfull]; [left; exact Hpre |].
    apply elem_of_cons in Hfull as [-> | Hfull]; [right; exact Hpre |].
    apply elem_of_nil in Hfull. contradiction.
  - rewrite Hscript. left. apply prefix_nil.
Qed.

Lemma call_events_in_order_witness :
  initial sample_system /\
  (events_of 0 (fst (exec sample_schedule sample_system))
     `prefix_of` [Acquired; BackendReturned; Released] \/
   events_of 0 (fst (exec sample_schedule sample_system))
     `prefix_of` [Acquired; BackendPanicked]).
Proof.
  assert (Hinit : initial sample_system).
  { split; [reflexivity |]. repeat constructor. }
  split; [exact Hinit |].
  exact (call_events_in_order sample_system sample_schedule 0 Hinit).
Defined.






Lemma goroutine_step_normal (c c' : CredCache) (g g' : goroutine) (e : event) :
  goroutine_step Normal c g = Some (e, c', g') ->
  e <> BackendPanicked /\ g' <> Panicked.
Proof.
  intros Hstep.
  destruct g as [R p |]; [| discriminate].
  destruct p as [r | k | k | A body k]; cbn in Hstep.
  - discriminate.
  - destruct (lock c); [discriminate |]. injection Hstep as <- <- <-.
    split; discriminate.
  - destruct (lock c); [| discriminate]. injection Hstep as <- <- <-.
    split; discriminate.
  - injection Hstep as <- <- <-. split; discriminate.
Qed.

Lemma initial_attended (s : system) : initial s -> attended s.
Proof.
  intros Hinit. split; [exact (initial_exclusive s Hinit) |].
  destruct Hinit as [Hfree Hcalls]. split.
  - rewrite Hfree. discriminate.
  - apply Forall_lookup. intros i g Hi.
    destruct (public_call_locks_first g (Forall_lookup_1 _ _ _ _ Hcalls Hi))
      as (R & p & -> & _).
    discriminate.
Qed.

Lemma system_step_attended (i : nat) (s : system) :
  attended s -> attended (snd (system_step i Normal s)).
Proof.
  intros (Hex & Hheld & Halive).
  pose proof (system_step_exclusive i Normal s Hex) as Hex'.
  destruct (system_step_cases i Normal s)
    as [-> | (g & e & c' & g' & Hi & Hstep & Heq)];
    [exact (conj Hex (conj Hheld Halive)) |].
  rewrite Heq in Hex' |- *. cbn [snd] in Hex' |- *.
  split; [exact Hex' |].
  destruct (goroutine_step_normal _ _ _ _ _ Hstep) as [He Hg'].
  destruct Hex as (Hproto & _ & _).
  pose proof (Forall_lookup_1 _ _ _ _ Hproto Hi) as Hg.
  destruct (goroutine_step_protocol _ _ _ _ _ _ Hg Hstep) as [_ Hev].
  split; cbn [cache goroutines].
  - intros Hlocked. exists i, g'. split.
    + apply list_lookup_insert_eq. eapply lookup_lt_Some; eauto.
    + destruct e.
      * apply Hev.
      * apply Hev.
      * contradiction.
      * destruct Hev as (_ & Hfree & _). congruence.
  - apply Forall_insert; assumption.
Qed.

Lemma exec_attended (sched : list (nat * fate)) (s : system) :
  calm sched -> attended s -> attended (snd (exec sched s)).
Proof.
  intros Hcalm. revert s.
  induction Hcalm as [| [j f] sched Hf _ IH]; intros s Hs; [exact Hs |].
  cbn [snd] in Hf. subst f. rewrite exec_cons. cbn [snd].
  apply IH. exact (system_step_attended j s Hs).
Qed.

(** Either every goroutine has returned, or one has not. *)
Lemma finished_or_not (gs : list goroutine) :
  (forall i g, gs !! i = Some g -> finished g = true) \/
  (exists i g, gs !! i = Some g /\ finished g = false).
Proof.
  induction gs as [| g gs IH].
  - left. intros i g Hi. rewrite lookup_nil in Hi. discriminate.
  - destruct (finished g) eqn:Hg.
    + destruct IH as [Hall | (i & g' & Hi & Hg')].
      * left. intros [| i] g' Hi; cbn in Hi; [congruence | eauto].
      * right. exists (S i), g'. auto.
    + right. exists 0%nat, g. auto.
Qed.

(** A goroutine that can step makes the system step. *)
Lemma system_step_moves (i : nat) (f : fate) (s : system) (g : goroutine) :
  goroutines s !! i = Some g ->
  goroutine_step f (cache s) g <> None ->
  fst (system_step i f s) <> None.
Proof.
  intros Hi Hstep. unfold system_step. rewrite Hi.
  destruct (goroutine_step f (cache s) g) as [[[e c'] g'] |];
    [discriminate | contradiction].
Qed.

Lemma holder_moves (s : system) (i : nat) (g : goroutine) :
  exclusive s ->
  goroutines s !! i = Some g -> holds_mutex g = true ->
  fst (system_step i Normal s) <> None.
Proof.
  intros (_ & Hfree & _) Hi Hh.
  apply (system_step_moves i Normal s g Hi).
  destruct g as [R p |]; [| discriminate].
  destruct p as [r | k | k | A body k]; cbn in Hh |- *; try discriminate.
  destruct (lock (cache s)) eqn:Hl; [discriminate |].
  pose proof (Hfree eq_refl i _ Hi) as Hno. cbn in Hno. discriminate.
Qed.

(** As long as no internal method panics, the cache cannot get stuck:
    under every schedule either every call has returned or some goroutine
    can take a step; the mutex is locked exactly while some goroutine is
    between its [Lock] and its [Unlock], and is free once every call has
    returned. *)
Theorem no_deadlock_without_panic (s0 : system) (sched : list (nat * fate)) :
  initial s0 -> calm sched ->
  let s := snd (exec sched s0) in
  (lock (cache s) = true <->
   exists i g, goroutines s !! i = Some g /\ holds_mutex g = true) /\
  ((forall i g, goroutines s !! i = Some g -> finished g = true) \/
   exists i, fst (system_step i Normal s) <> None) /\
  ((forall i g, goroutines s !! i = Some g -> finished g = true) ->
   lock (cache s) = false).
Proof.
  intros Hinit Hcalm s.
  pose proof (exec_attended sched s0 Hcalm (initial_attended s0 Hinit))
    as (Hex & Hheld & Halive).
  fold s in Hex, Hheld, Halive.
  pose proof Hex as (Hproto & Hfree & _).
  assert (Hiff : lock (cache s) = true <->
                 exists i g, goroutines s !! i = Some g /\
                             holds_mutex g = true).
  { split; [exact Hheld |]. intros (i & g & Hi & Hh).
    destruct (lock (cache s)) eqn:Hl; [reflexivity |].
    pose proof (Hfree eq_refl i g Hi). congruence. }
  split; [exact Hiff |]. split.
  - destruct (finished_or_not (goroutines s)) as [Hall | (i & g & Hi & Hg)];
      [left; exact Hall | right].
    destruct (lock (cache s)) eqn:Hl.
    + destruct (Hheld eq_refl) as (j & h & Hj & Hh).
      exists j. exact (holder_moves s j h Hex Hj Hh).
    + exists i. apply (system_step_moves i Normal s g Hi).
      pose proof (Forall_lookup_1 _ _ _ _ Halive Hi) as Hnp.
      pose proof (Hfree eq_refl i g Hi) as Hno.
      destruct g as [R p |]; [| contradiction].
      destruct p as [r | k | k | A body k]; cbn in Hg, Hno |- *;
        try discriminate.
      rewrite Hl. discriminate.
  - intros Hall. destruct (lock (cache s)) eqn:Hl; [| reflexivity].
    destruct (Hheld eq_refl) as (j & h & Hj & Hh).
    pose proof (Hall j h Hj) as Hfin.
    destruct h as [R p |]; [| discriminate].
    destruct p; cbn in Hfin, Hh; discriminate.
Qed.

Lemma no_deadlock_without_panic_witness :
  initial sample_system /\ calm sample_calm_schedule /\
  lock (cache (snd (exec sample_calm_schedule sample_system))) = false.
Proof.
  assert (Hinit : initial sample_system).
  { split; [reflexivity |]. repeat constructor. }
  assert (Hcalm : calm sample_calm_schedule) by (repeat constructor).
  split; [exact Hinit |]. split; [exact Hcalm |].
  destruct (no_deadlock_without_panic sample_system sample_calm_schedule
              Hinit Hcalm) as (_ & _ & Hfree).
  apply Hfree. intros [| [| i]] g Hi; cbn in Hi.
  - injection Hi as <-. reflexivity.
  - injection Hi as <-. reflexivity.
  - discriminate.
Defined.

Lemma CreateFile_never_witness :
  let result :=
    run_IO
      (CreateFileOfSizeWithWriteThroughOption (FS := sample_FS)
         "/tmp/out.bin" 4096 true tt false)
      100 in
  CallClose 3%nat ∈ snd (snd result) /\
  fst (fst result) = 0%nat /\ snd (fst result) <> None.
Proof.
  intros result.
  assert (Hin : CallClose (Tracker := unit) 3%nat ∈ snd (snd result))
    by (cbn; repeat constructor).
  split; [exact Hin |].
  destruct (CreateFile_never (FS := sample_FS)
              "/tmp/out.bin" 4096 true tt false 100) as (Hclose & _).
  exact (Hclose 3%nat Hin).
Defined.
